(** * Z-services-ai: report merge engine and collaboration protocol

    A shallow embedding of
    - the flat report store            (zustand store [useReportStore]),
    - the category-aware report store  (zustand store [useHomeReportStore]),
    - the collaboration route handler  (the action-multiplexed [POST]),
    together with the properties of the specification that concern them.

    JavaScript values are modelled at the types the TypeScript sources give
    them.  Wall-clock readings ([Date.now()]) are an explicit argument [now]
    of every operation that reads the clock; one operation sees one reading. *)

From Stdlib Require Import ZArith.
From stdpp Require Import base option list strings gmap fin_maps pretty.

Local Open Scope Z_scope.
Local Open Scope string_scope.

(** ** JavaScript primitives used by the sources *)

Module Js.

(** Truthiness of a string: every string but the empty one. *)
Definition str_truthy (s : string) : bool := negb (String.eqb s "").

(** [a || b] on strings. *)
Definition str_or (a b : string) : string := if str_truthy a then a else b.

(** Truthiness of a [string | null] value; [None] is [null]. *)
Definition opt_truthy (o : option string) : bool :=
  match o with
  | Some s => str_truthy s
  | None => false
  end.

(** [a || b] on [string | null]. *)
Definition opt_or (a b : option string) : option string :=
  if opt_truthy a then a else b.

(** Truthiness of a number. *)
Definition num_truthy (z : Z) : bool := negb (z =? 0)%Z.

(** [a || b] where [a] is an optional number parameter. *)
Definition num_or (a : option Z) (b : Z) : Z :=
  match a with
  | Some z => if num_truthy z then z else b
  | None => b
  end.

(** A string is kept as its UTF-8 encoding, one [Ascii.ascii] per byte:
    equality, emptiness and concatenation of well-formed strings are then
    those of JavaScript.

    [String.prototype.trim] strips the WhiteSpace and LineTerminator
    characters of the language.  In UTF-8 these are
    - one byte: TAB, LF, VT, FF, CR (9..13) and SPACE (32);
    - two bytes: U+00A0 (C2 A0);
    - three bytes: U+1680 (E1 9A 80), U+2000..U+200A (E2 80 80..8A),
      U+2028, U+2029 and U+202F (E2 80 A8, A9, AF), U+205F (E2 81 9F),
      U+3000 (E3 80 80) and U+FEFF (EF BB BF). *)
Definition is_space (c : Ascii.ascii) : bool :=
  let n := Ascii.nat_of_ascii c in
  ((9 <=? n) && (n <=? 13) || (n =? 32))%nat.

Definition is_space2 (c1 c2 : Ascii.ascii) : bool :=
  let n1 := Ascii.nat_of_ascii c1 in
  let n2 := Ascii.nat_of_ascii c2 in
  ((n1 =? 194) && (n2 =? 160))%nat.

Definition is_space3 (c1 c2 c3 : Ascii.ascii) : bool :=
  let n1 := Ascii.nat_of_ascii c1 in
  let n2 := Ascii.nat_of_ascii c2 in
  let n3 := Ascii.nat_of_ascii c3 in
  ((n1 =? 225) && (n2 =? 154) && (n3 =? 128)
   || (n1 =? 226) && (n2 =? 128)
      && ((128 <=? n3) && (n3 <=? 138)
          || (n3 =? 168) || (n3 =? 169) || (n3 =? 175))
   || (n1 =? 226) && (n2 =? 129) && (n3 =? 159)
   || (n1 =? 227) && (n2 =? 128) && (n3 =? 128)
   || (n1 =? 239) && (n2 =? 187) && (n3 =? 191))%nat.

(** Whether a string is made of white-space characters only. *)
Fixpoint allSpace (s : string) : bool :=
  match s with
  | EmptyString => true
  | String c1 r1 =>
      if is_space c1 then allSpace r1 else
      match r1 with
      | EmptyString => false
      | String c2 r2 =>
          if is_space2 c1 c2 then allSpace r2 else
          match r2 with
          | EmptyString => false
          | String c3 r3 => is_space3 c1 c2 c3 && allSpace r3
          end
      end
  end.

(** The string from its first character that is not white space. *)
Fixpoint trimStart (s : string) : string :=
  match s with
  | EmptyString => EmptyString
  | String c1 r1 =>
      if is_space c1 then trimStart r1 else
      match r1 with
      | EmptyString => s
      | String c2 r2 =>
          if is_space2 c1 c2 then trimStart r2 else
          match r2 with
          | EmptyString => s
          | String c3 r3 => if is_space3 c1 c2 c3 then trimStart r3 else s
          end
      end
  end.

(** The string without its longest suffix of white-space characters: it
    is cut at the first position from which only white space follows.  (No
    white-space character starts with a continuation byte, so that position
    is the start of a character.) *)
Fixpoint trimEnd (s : string) : string :=
  match s with
  | EmptyString => EmptyString
  | String c r => if allSpace s then EmptyString else String c (trimEnd r)
  end.

Definition trim (s : string) : string := trimEnd (trimStart s).

(** A field of [InspectionData] as a merge sees it: the declared fields
    are strings, the three reference photos are [string | null], and a
    [Partial<InspectionData>] may carry [undefined]. *)
Inductive FieldVal :=
| FUndefined
| FNull
| FStr (s : string).

Global Instance FieldVal_eq_dec : EqDecision FieldVal.
Proof. solve_decision. Defined.

Definition truthy (v : FieldVal) : bool :=
  match v with
  | FStr s => str_truthy s
  | _ => false
  end.

(** [v !== null && v !== undefined && v !== ''] *)
Definition has_value (v : FieldVal) : bool :=
  match v with
  | FUndefined | FNull => false
  | FStr s => negb (String.eqb s "")
  end.

(** Strict equality [a === b] on field values. *)
Definition strict_eq (a b : FieldVal) : bool := bool_decide (a = b).

(** An object used as a record of fields; reading a missing property
    gives [undefined]. *)
Definition get (o : gmap string FieldVal) (k : string) : FieldVal :=
  default FUndefined (o !! k).

(** [{ ...a, ...b }]: the properties of [b] win. *)
Definition spread (a b : gmap string FieldVal) : gmap string FieldVal := b ∪ a.

End Js.

(** ** Report data types

    The TypeScript declarations of [PhotoData], [AdditionalPart] and
    [InspectionData] live in [@/types/report]; the shapes below are the ones
    of the object literals the stores build. *)

(** Modelled from the spec: the element type of [embeddedPhotos] ("a
    sequence of embedded sub-photos"), an image payload. *)
Definition EmbeddedPhoto : Type := string.

Module Photo.

(** Modelled from the spec: the [PhotoData] interface, with the fields and
    field types of the literals in [createInitialPhotos]. *)
Record t := mk {
  id : string;
  description : string;
  pn : string;
  serialNumber : string;
  partName : string;
  quantity : string;
  criticality : string;
  imageData : option string;
  editedImageData : option string;
  embeddedPhotos : list EmbeddedPhoto;
  hasAdditionalParts : bool
}.

(** [Partial<PhotoData>]: every field optional. *)
Record partial := mkPartial {
  id' : option string;
  description' : option string;
  pn' : option string;
  serialNumber' : option string;
  partName' : option string;
  quantity' : option string;
  criticality' : option string;
  imageData' : option (option string);
  editedImageData' : option (option string);
  embeddedPhotos' : option (list EmbeddedPhoto);
  hasAdditionalParts' : option bool
}.

(** [{ ...p, ...data }] *)
Definition patch (p : t) (d : partial) : t :=
  {| id := default (id p) (id' d);
     description := default (description p) (description' d);
     pn := default (pn p) (pn' d);
     serialNumber := default (serialNumber p) (serialNumber' d);
     partName := default (partName p) (partName' d);
     quantity := default (quantity p) (quantity' d);
     criticality := default (criticality p) (criticality' d);
     imageData := default (imageData p) (imageData' d);
     editedImageData := default (editedImageData p) (editedImageData' d);
     embeddedPhotos := default (embeddedPhotos p) (embeddedPhotos' d);
     hasAdditionalParts := default (hasAdditionalParts p) (hasAdditionalParts' d) |}.

(** The blank photo entry both stores create, up to its identifier. *)
Definition blank (i : string) : t :=
  {| id := i; description := ""; pn := ""; serialNumber := "";
     partName := ""; quantity := ""; criticality := "";
     imageData := None; editedImageData := None;
     embeddedPhotos := []; hasAdditionalParts := false |}.

End Photo.

Module Part.

(** Modelled from the spec: [AdditionalPart], "identifier plus descriptive
    fields"; the descriptive fields are kept as a property map. *)
Record t := mk {
  id : string;
  fields : gmap string string
}.

Record partial := mkPartial {
  id' : option string;
  fields' : gmap string string
}.

(** [{ ...p, ...data }] *)
Definition patch (p : t) (d : partial) : t :=
  {| id := default (id p) (id' d);
     fields := fields' d ∪ fields p |}.

End Part.

(** ** Photo-sequence merge ([mergePhotos], the same text in both stores) *)

Module Merge.

(** The object literal pushed when both sides have an entry. *)
Definition mergePhoto (local server : Photo.t) : Photo.t :=
  {| Photo.id := Js.str_or (Photo.id server) (Photo.id local);
     Photo.description :=
       Js.str_or (Js.str_or (Photo.description server) (Photo.description local)) "";
     Photo.pn := Js.str_or (Js.str_or (Photo.pn server) (Photo.pn local)) "";
     Photo.serialNumber :=
       Js.str_or (Js.str_or (Photo.serialNumber server) (Photo.serialNumber local)) "";
     Photo.partName :=
       Js.str_or (Js.str_or (Photo.partName server) (Photo.partName local)) "";
     Photo.quantity :=
       Js.str_or (Js.str_or (Photo.quantity server) (Photo.quantity local)) "";
     Photo.criticality :=
       Js.str_or (Js.str_or (Photo.criticality server) (Photo.criticality local)) "";
     Photo.imageData := Js.opt_or (Photo.imageData server) (Photo.imageData local);
     Photo.editedImageData :=
       Js.opt_or (Photo.editedImageData server) (Photo.editedImageData local);
     Photo.embeddedPhotos :=
       if (0 <? length (Photo.embeddedPhotos server))%nat
       then Photo.embeddedPhotos server
       else Photo.embeddedPhotos local;
     Photo.hasAdditionalParts :=
       Photo.hasAdditionalParts server || Photo.hasAdditionalParts local |}.

(** One iteration of the [for] loop: [merged] after index [i]. *)
Definition mergeStep (localPhotos serverPhotos : list Photo.t)
    (merged : list Photo.t) (i : nat) : list Photo.t :=
  match localPhotos !! i, serverPhotos !! i with
  | None, Some server => merged ++ [server]
  | Some local, None => merged ++ [local]
  | Some local, Some server => merged ++ [mergePhoto local server]
  | None, None => merged
  end.

Definition mergePhotos (localPhotos serverPhotos : list Photo.t) : list Photo.t :=
  if (length serverPhotos =? 0)%nat then localPhotos
  else if (length localPhotos =? 0)%nat then serverPhotos
  else
    let maxLen := Nat.max (length localPhotos) (length serverPhotos) in
    foldl (mergeStep localPhotos serverPhotos) [] (seq 0 maxLen).

(** The positional pairing the loop computes, by structural recursion. *)
Fixpoint pairwise (l s : list Photo.t) : list Photo.t :=
  match l, s with
  | [], _ => s
  | _, [] => l
  | a :: l', x :: s' => mergePhoto a x :: pairwise l' s'
  end.

(** What "incoming wins when it has a value" means for each kind of field. *)
Definition preferStr (server local : string) : string :=
  if decide (server = "") then local else server.

Definition preferImage (server local : option string) : option string :=
  if decide (server = None ∨ server = Some "") then local else server.

Definition preferList (server local : list EmbeddedPhoto) : list EmbeddedPhoto :=
  if decide (server = []) then local else server.

End Merge.

(** ** The flat report store ([useReportStore]) *)

Module ReportStore.

Record Translation := mkTranslation {
  sourceLang : string;
  targetLang : string;
  translations : gmap string string
}.

Record State := mkState {
  inspection : gmap string Js.FieldVal;
  photos : list Photo.t;
  photoCount : Z;
  additionalParts : list Part.t;
  conclusion : string;
  translation : option Translation;
  lastLocalEdit : Z
}.

(** The argument of [loadFromData] and [mergeFromData]: each part is
    optional. *)
Record Data := mkData {
  data_inspection : option (gmap string Js.FieldVal);
  data_photos : option (list Photo.t);
  data_conclusion : option string
}.

Definition initialInspection : gmap string Js.FieldVal :=
  list_to_map
    [ ("tag", Js.FStr ""); ("modelo", Js.FStr ""); ("sn", Js.FStr "");
      ("entrega", Js.FStr ""); ("cliente", Js.FStr "");
      ("descricao", Js.FStr ""); ("machineDown", Js.FStr "");
      ("data", Js.FStr ""); ("dataFinal", Js.FStr "");
      ("osExecucao", Js.FStr ""); ("inspetor", Js.FStr "");
      ("horimetro", Js.FStr ""); ("machinePhoto", Js.FNull);
      ("horimetroPhoto", Js.FNull); ("serialPhoto", Js.FNull) ].

(** [Array.from({ length: count }, ...)]: a negative length gives the
    empty array.  The list stands for the array of a length below [2^32];
    from [2^32] on [Array.from] throws a [RangeError] instead of returning,
    which the list does not show. *)
Definition createInitialPhotos (count : Z) : list Photo.t :=
  map (λ i : nat, Photo.blank ("photo-init-" +:+ pretty i))
      (seq 0 (Z.to_nat count)).

Definition initialState : State :=
  {| inspection := initialInspection;
     photos := createInitialPhotos 4;
     photoCount := 4;
     additionalParts := [];
     conclusion := "";
     translation := None;
     lastLocalEdit := 0 |}.

Definition setLastLocalEdit (timestamp : Z) (st : State) : State :=
  {| inspection := inspection st; photos := photos st;
     photoCount := photoCount st; additionalParts := additionalParts st;
     conclusion := conclusion st; translation := translation st;
     lastLocalEdit := timestamp |}.

Definition updateInspection (now : Z) (data : gmap string Js.FieldVal)
    (st : State) : State :=
  {| inspection := Js.spread (inspection st) data; photos := photos st;
     photoCount := photoCount st; additionalParts := additionalParts st;
     conclusion := conclusion st; translation := translation st;
     lastLocalEdit := now |}.

Definition setPhotos (now : Z) (ps : list Photo.t) (st : State) : State :=
  {| inspection := inspection st; photos := ps;
     photoCount := photoCount st; additionalParts := additionalParts st;
     conclusion := conclusion st; translation := translation st;
     lastLocalEdit := now |}.

Definition addPhoto (now : Z) (st : State) : State :=
  {| inspection := inspection st;
     photos := photos st ++ [Photo.blank ("photo-" +:+ pretty now)];
     photoCount := photoCount st + 1;
     additionalParts := additionalParts st;
     conclusion := conclusion st; translation := translation st;
     lastLocalEdit := now |}.

Definition removePhoto (now : Z) (id : string) (st : State) : State :=
  {| inspection := inspection st;
     photos := List.filter (λ p, negb (String.eqb (Photo.id p) id)) (photos st);
     photoCount := photoCount st - 1;
     additionalParts := additionalParts st;
     conclusion := conclusion st; translation := translation st;
     lastLocalEdit := now |}.

Definition updatePhoto (now : Z) (id : string) (data : Photo.partial)
    (st : State) : State :=
  {| inspection := inspection st;
     photos := map (λ p, if String.eqb (Photo.id p) id
                         then Photo.patch p data else p) (photos st);
     photoCount := photoCount st;
     additionalParts := additionalParts st;
     conclusion := conclusion st; translation := translation st;
     lastLocalEdit := now |}.

(** [newPhotos[i] = currentPhotos[i]] for [i] below
    [Math.min(currentPhotos.length, count)]. *)
Definition preservePhotos (currentPhotos newPhotos : list Photo.t)
    (count : Z) : list Photo.t :=
  foldl (λ acc i, match currentPhotos !! i with
                  | Some p => <[i:=p]> acc
                  | None => acc
                  end)
        newPhotos
        (seq 0 (Z.to_nat (Z.min (Z.of_nat (length currentPhotos)) count))).

Definition setPhotoCount (now : Z) (count : Z) (st : State) : State :=
  {| inspection := inspection st;
     photos := preservePhotos (photos st) (createInitialPhotos count) count;
     photoCount := count;
     additionalParts := additionalParts st;
     conclusion := conclusion st; translation := translation st;
     lastLocalEdit := now |}.

Definition addAdditionalPart (now : Z) (part : Part.t) (st : State) : State :=
  {| inspection := inspection st; photos := photos st;
     photoCount := photoCount st;
     additionalParts := additionalParts st ++ [part];
     conclusion := conclusion st; translation := translation st;
     lastLocalEdit := now |}.

Definition removeAdditionalPart (now : Z) (id : string) (st : State) : State :=
  {| inspection := inspection st; photos := photos st;
     photoCount := photoCount st;
     additionalParts :=
       List.filter (λ p, negb (String.eqb (Part.id p) id)) (additionalParts st);
     conclusion := conclusion st; translation := translation st;
     lastLocalEdit := now |}.

Definition updateAdditionalPart (now : Z) (id : string) (data : Part.partial)
    (st : State) : State :=
  {| inspection := inspection st; photos := photos st;
     photoCount := photoCount st;
     additionalParts :=
       map (λ p, if String.eqb (Part.id p) id then Part.patch p data else p)
           (additionalParts st);
     conclusion := conclusion st; translation := translation st;
     lastLocalEdit := now |}.

Definition setAdditionalParts (now : Z) (parts : list Part.t) (st : State) : State :=
  {| inspection := inspection st; photos := photos st;
     photoCount := photoCount st; additionalParts := parts;
     conclusion := conclusion st; translation := translation st;
     lastLocalEdit := now |}.

Definition setConclusion (now : Z) (text : string) (st : State) : State :=
  {| inspection := inspection st; photos := photos st;
     photoCount := photoCount st; additionalParts := additionalParts st;
     conclusion := text; translation := translation st;
     lastLocalEdit := now |}.

Definition setTranslation (tr : option Translation) (st : State) : State :=
  {| inspection := inspection st; photos := photos st;
     photoCount := photoCount st; additionalParts := additionalParts st;
     conclusion := conclusion st; translation := tr;
     lastLocalEdit := lastLocalEdit st |}.

(** [set({ inspection, photos, conclusion })]: the three keys are
    replaced, every other key of the state is kept. *)
Definition setAggregate (insp : gmap string Js.FieldVal) (ps : list Photo.t)
    (concl : string) (st : State) : State :=
  {| inspection := insp; photos := ps;
     photoCount := photoCount st; additionalParts := additionalParts st;
     conclusion := concl; translation := translation st;
     lastLocalEdit := lastLocalEdit st |}.

Definition loadFromData (data : Data) (st : State) : State :=
  setAggregate
    (match data_inspection data with
     | Some i => Js.spread initialInspection i
     | None => initialInspection
     end)
    (default (createInitialPhotos 4) (data_photos data))
    (match data_conclusion data with
     | Some c => Js.str_or c ""
     | None => ""
     end)
    st.

(** The body of the [forEach] over [Object.keys(data.inspection)]; the
    accumulator is the pair [(newInspection, hasChanges)]. *)
Definition mergeField (k : string) (serverValue : Js.FieldVal)
    (acc : gmap string Js.FieldVal * bool) : gmap string Js.FieldVal * bool :=
  if Js.has_value serverValue then
    if negb (Js.strict_eq (Js.get acc.1 k) serverValue)
    then (<[k:=serverValue]> acc.1, true)
    else acc
  else acc.

(** What [mergeFromData] hands to [set], and the local [hasChanges] that
    guards its [console.log]. *)
Record Merged := mkMerged {
  newInspection : gmap string Js.FieldVal;
  newPhotos : list Photo.t;
  newConclusion : string;
  hasChanges : bool
}.

Definition mergeResult (data : Data) (serverTimestamp : option Z)
    (st : State) : Merged :=
  let r1 :=
    match data_inspection data with
    | Some i => map_fold mergeField (inspection st, false) i
    | None => (inspection st, false)
    end in
  let r2 :=
    match data_photos data with
    | Some ps => (Merge.mergePhotos (photos st) ps, true)
    | None => (photos st, r1.2)
    end in
  let r3 :=
    match data_conclusion data with
    | Some c =>
        if Js.str_truthy c && negb (String.eqb (Js.trim c) "") then
          if negb (String.eqb (conclusion st) c) then (c, true)
          else (conclusion st, r2.2)
        else (conclusion st, r2.2)
    | None => (conclusion st, r2.2)
    end in
  {| newInspection := r1.1; newPhotos := r2.1;
     newConclusion := r3.1; hasChanges := r3.2 |}.

Definition mergeFromData (data : Data) (serverTimestamp : option Z)
    (st : State) : State :=
  let m := mergeResult data serverTimestamp st in
  setAggregate (newInspection m) (newPhotos m) (newConclusion m) st.

Definition getAllData (st : State) : Data :=
  {| data_inspection := Some (inspection st);
     data_photos := Some (photos st);
     data_conclusion := Some (conclusion st) |}.

Definition clearAll (st : State) : State := initialState.


(** The actions of the store as one type, so that statements can range
    over them. *)
Inductive Action :=
| SetLastLocalEdit (timestamp : Z)
| UpdateInspection (data : gmap string Js.FieldVal)
| SetPhotos (ps : list Photo.t)
| AddPhoto
| RemovePhoto (id : string)
| UpdatePhoto (id : string) (data : Photo.partial)
| SetPhotoCount (count : Z)
| AddAdditionalPart (part : Part.t)
| RemoveAdditionalPart (id : string)
| UpdateAdditionalPart (id : string) (data : Part.partial)
| SetAdditionalParts (parts : list Part.t)
| SetConclusion (text : string)
| SetTranslation (tr : option Translation)
| LoadFromData (data : Data)
| MergeFromData (data : Data) (serverTimestamp : option Z)
| ClearAll.

Definition run (now : Z) (a : Action) (st : State) : State :=
  match a with
  | SetLastLocalEdit t => setLastLocalEdit t st
  | UpdateInspection d => updateInspection now d st
  | SetPhotos ps => setPhotos now ps st
  | AddPhoto => addPhoto now st
  | RemovePhoto id => removePhoto now id st
  | UpdatePhoto id d => updatePhoto now id d st
  | SetPhotoCount c => setPhotoCount now c st
  | AddAdditionalPart p => addAdditionalPart now p st
  | RemoveAdditionalPart id => removeAdditionalPart now id st
  | UpdateAdditionalPart id d => updateAdditionalPart now id d st
  | SetAdditionalParts ps => setAdditionalParts now ps st
  | SetConclusion t => setConclusion now t st
  | SetTranslation tr => setTranslation tr st
  | LoadFromData d => loadFromData d st
  | MergeFromData d ts => mergeFromData d ts st
  | ClearAll => clearAll st
  end.

(** The mutating operations the Local Edit Tracker lists: field update,
    photo add/remove/update, additional-part add/remove/update,
    conclusion change and the bulk replacements. *)
Definition isLocalEdit (a : Action) : bool :=
  match a with
  | UpdateInspection _ | SetPhotos _ | AddPhoto | RemovePhoto _
  | UpdatePhoto _ _ | SetPhotoCount _ | AddAdditionalPart _
  | RemoveAdditionalPart _ | UpdateAdditionalPart _ _
  | SetAdditionalParts _ | SetConclusion _ => true
  | _ => false
  end.

Definition isServerData (a : Action) : bool :=
  match a with
  | LoadFromData _ | MergeFromData _ _ => true
  | _ => false
  end.

End ReportStore.

(** ** The category-aware report store ([useHomeReportStore]) *)

Module HomeReportStore.

(** Modelled from the spec: an entry of [DEFAULT_CATEGORIES], an
    identifier plus the descriptive properties that [...cat] copies. *)
Record CategoryDef := mkCategoryDef {
  def_id : string;
  def_props : gmap string string
}.

(** Modelled from the spec: [PhotoCategory], a category "owning its own
    ordered sequence of Photo entries and its own Additional-Part
    collection". *)
Record PhotoCategory := mkCategory {
  id : string;
  props : gmap string string;
  photos : list Photo.t;
  additionalParts : list Part.t
}.

Record State := mkState {
  inspection : gmap string Js.FieldVal;
  categories : list PhotoCategory;
  conclusion : string;
  lastLocalEdit : Z
}.

Record Data := mkData {
  data_inspection : option (gmap string Js.FieldVal);
  data_categories : option (list PhotoCategory);
  data_conclusion : option string
}.

Definition initialInspection : gmap string Js.FieldVal :=
  ReportStore.initialInspection.

Definition createInitialCategoryPhotos (categoryId : string) : list Photo.t :=
  map (λ i : nat,
         Photo.blank ("photo-" +:+ categoryId +:+ "-init-" +:+ pretty i))
      (seq 0 2).

(** [mergeCategories]: driven by the server's list. *)
Definition mergeCategory (localCats : list PhotoCategory)
    (serverCat : PhotoCategory) : PhotoCategory :=
  match List.find (λ c, String.eqb (id c) (id serverCat)) localCats with
  | None => serverCat
  | Some localCat =>
      {| id := id serverCat;
         props := props serverCat;
         photos := Merge.mergePhotos (photos localCat) (photos serverCat);
         additionalParts :=
           if (0 <? length (additionalParts serverCat))%nat
           then additionalParts serverCat
           else additionalParts localCat |}
  end.

Definition mergeCategories (localCats serverCats : list PhotoCategory)
    : list PhotoCategory :=
  if (length serverCats =? 0)%nat then localCats
  else if (length localCats =? 0)%nat then serverCats
  else map (mergeCategory localCats) serverCats.

(** [state.categories.map(cat => cat.id !== categoryId ? cat : f(cat))] *)
Definition inCategory (categoryId : string) (f : PhotoCategory → PhotoCategory)
    (cats : list PhotoCategory) : list PhotoCategory :=
  map (λ cat, if negb (String.eqb (id cat) categoryId) then cat else f cat) cats.

Definition withPhotos (ps : list Photo.t) (cat : PhotoCategory) : PhotoCategory :=
  {| id := id cat; props := props cat; photos := ps;
     additionalParts := additionalParts cat |}.

Definition withParts (ps : list Part.t) (cat : PhotoCategory) : PhotoCategory :=
  {| id := id cat; props := props cat; photos := photos cat;
     additionalParts := ps |}.

Definition setLastLocalEdit (timestamp : Z) (st : State) : State :=
  {| inspection := inspection st; categories := categories st;
     conclusion := conclusion st; lastLocalEdit := timestamp |}.

Definition updateInspection (now : Z) (data : gmap string Js.FieldVal)
    (st : State) : State :=
  {| inspection := Js.spread (inspection st) data;
     categories := categories st;
     conclusion := conclusion st; lastLocalEdit := now |}.

Definition setCategories (now : Z) (cats : list PhotoCategory) (st : State) : State :=
  {| inspection := inspection st; categories := cats;
     conclusion := conclusion st; lastLocalEdit := now |}.

Definition addPhotoToCategory (now : Z) (categoryId : string) (st : State) : State :=
  {| inspection := inspection st;
     categories :=
       inCategory categoryId
         (λ cat, withPhotos
                   (photos cat ++
                      [Photo.blank ("photo-" +:+ categoryId +:+ "-" +:+ pretty now)])
                   cat)
         (categories st);
     conclusion := conclusion st; lastLocalEdit := now |}.

Definition removePhotoFromCategory (now : Z) (categoryId photoId : string)
    (st : State) : State :=
  {| inspection := inspection st;
     categories :=
       inCategory categoryId
         (λ cat, withPhotos
                   (List.filter (λ p, negb (String.eqb (Photo.id p) photoId))
                                (photos cat))
                   cat)
         (categories st);
     conclusion := conclusion st; lastLocalEdit := now |}.

Definition updatePhotoInCategory (now : Z) (categoryId photoId : string)
    (data : Photo.partial) (st : State) : State :=
  {| inspection := inspection st;
     categories :=
       inCategory categoryId
         (λ cat, withPhotos
                   (map (λ p, if String.eqb (Photo.id p) photoId
                              then Photo.patch p data else p)
                        (photos cat))
                   cat)
         (categories st);
     conclusion := conclusion st; lastLocalEdit := now |}.

Definition addAdditionalPartToCategory (now : Z) (categoryId : string)
    (part : Part.t) (st : State) : State :=
  {| inspection := inspection st;
     categories :=
       inCategory categoryId
         (λ cat, withParts (additionalParts cat ++ [part]) cat)
         (categories st);
     conclusion := conclusion st; lastLocalEdit := now |}.

Definition removeAdditionalPartFromCategory (now : Z)
    (categoryId partId : string) (st : State) : State :=
  {| inspection := inspection st;
     categories :=
       inCategory categoryId
         (λ cat, withParts
                   (List.filter (λ p, negb (String.eqb (Part.id p) partId))
                                (additionalParts cat))
                   cat)
         (categories st);
     conclusion := conclusion st; lastLocalEdit := now |}.

Definition setConclusion (now : Z) (text : string) (st : State) : State :=
  {| inspection := inspection st; categories := categories st;
     conclusion := text; lastLocalEdit := now |}.

(** [set({ inspection, categories, conclusion })] *)
Definition setAggregate (insp : gmap string Js.FieldVal)
    (cats : list PhotoCategory) (concl : string) (st : State) : State :=
  {| inspection := insp; categories := cats; conclusion := concl;
     lastLocalEdit := lastLocalEdit st |}.

(** The body of the [forEach] over [Object.keys(data.inspection)].
    [localValue] is read from [state.inspection], the write goes to the
    copy [newInspection]. *)
Definition mergeField (localInspection : gmap string Js.FieldVal)
    (serverTime localEditTime : Z) (k : string) (serverValue : Js.FieldVal)
    (newInspection : gmap string Js.FieldVal) : gmap string Js.FieldVal :=
  let localValue := Js.get localInspection k in
  if Js.truthy serverValue
     && (negb (Js.truthy localValue) || Js.strict_eq localValue (Js.FStr ""))
  then <[k:=serverValue]> newInspection
  else if Js.truthy serverValue && (serverTime >? localEditTime)%Z
  then <[k:=serverValue]> newInspection
  else newInspection.

(** Whether the loop writes the server value of a field: the two branches
    of [mergeField] taken together. *)
Definition adopts (serverTime localEditTime : Z)
    (localValue serverValue : Js.FieldVal) : bool :=
  Js.truthy serverValue
  && (negb (Js.truthy localValue) || (serverTime >? localEditTime)%Z).

Definition mergeInspection (localInspection : gmap string Js.FieldVal)
    (serverTime localEditTime : Z) (server : gmap string Js.FieldVal)
    : gmap string Js.FieldVal :=
  map_fold (mergeField localInspection serverTime localEditTime)
           localInspection server.

(** [serverTimestamp || Date.now()] *)
Definition serverTimeOf (serverTimestamp : option Z) (now : Z) : Z :=
  Js.num_or serverTimestamp now.

(** [state.lastLocalEdit || 0] *)
Definition localEditTimeOf (st : State) : Z :=
  Js.num_or (Some (lastLocalEdit st)) 0.

(** [localEditTime > serverTime && localEditTime > 0]: the guard in front
    of the early [return {}]. *)
Definition localIsNewer (now : Z) (serverTimestamp : option Z) (st : State)
    : bool :=
  (localEditTimeOf st >? serverTimeOf serverTimestamp now)%Z
  && (localEditTimeOf st >? 0)%Z.

Definition mergeFromData (now : Z) (data : Data) (serverTimestamp : option Z)
    (st : State) : State :=
  let localEditTime := localEditTimeOf st in
  let serverTime := serverTimeOf serverTimestamp now in
  if localIsNewer now serverTimestamp st then
    (* set({}) *)
    st
  else
    let newInspection :=
      match data_inspection data with
      | Some i => mergeInspection (inspection st) serverTime localEditTime i
      | None => inspection st
      end in
    let newCategories :=
      match data_categories data with
      | Some cs => mergeCategories (categories st) cs
      | None => categories st
      end in
    let newConclusion :=
      match data_conclusion data with
      | Some c =>
          if Js.str_truthy c
             && (negb (Js.str_truthy (conclusion st))
                 || (serverTime >? localEditTime)%Z)
          then c else conclusion st
      | None => conclusion st
      end in
    setAggregate newInspection newCategories newConclusion st.

Definition getAllData (st : State) : Data :=
  {| data_inspection := Some (inspection st);
     data_categories := Some (categories st);
     data_conclusion := Some (conclusion st) |}.

Section Defaults.

(** The constant of [@/types/report] that fixes the valid categories. *)
Variable DEFAULT_CATEGORIES : list CategoryDef.

Definition createInitialCategories : list PhotoCategory :=
  map (λ cat, {| id := def_id cat; props := def_props cat;
                 photos := createInitialCategoryPhotos (def_id cat);
                 additionalParts := [] |})
      DEFAULT_CATEGORIES.

Definition initialState : State :=
  {| inspection := initialInspection;
     categories := createInitialCategories;
     conclusion := "";
     lastLocalEdit := 0 |}.

Definition loadFromData (data : Data) (st : State) : State :=
  setAggregate
    (match data_inspection data with
     | Some i => Js.spread initialInspection i
     | None => initialInspection
     end)
    (default createInitialCategories (data_categories data))
    (match data_conclusion data with
     | Some c => Js.str_or c ""
     | None => ""
     end)
    st.

Definition clearAll (st : State) : State := initialState.

Inductive Action :=
| SetLastLocalEdit (timestamp : Z)
| UpdateInspection (data : gmap string Js.FieldVal)
| SetCategories (cats : list PhotoCategory)
| AddPhotoToCategory (categoryId : string)
| RemovePhotoFromCategory (categoryId photoId : string)
| UpdatePhotoInCategory (categoryId photoId : string) (data : Photo.partial)
| AddAdditionalPartToCategory (categoryId : string) (part : Part.t)
| RemoveAdditionalPartFromCategory (categoryId partId : string)
| SetConclusion (text : string)
| LoadFromData (data : Data)
| MergeFromData (data : Data) (serverTimestamp : option Z)
| ClearAll.

Definition run (now : Z) (a : Action) (st : State) : State :=
  match a with
  | SetLastLocalEdit t => setLastLocalEdit t st
  | UpdateInspection d => updateInspection now d st
  | SetCategories cs => setCategories now cs st
  | AddPhotoToCategory c => addPhotoToCategory now c st
  | RemovePhotoFromCategory c p => removePhotoFromCategory now c p st
  | UpdatePhotoInCategory c p d => updatePhotoInCategory now c p d st
  | AddAdditionalPartToCategory c p => addAdditionalPartToCategory now c p st
  | RemoveAdditionalPartFromCategory c p =>
      removeAdditionalPartFromCategory now c p st
  | SetConclusion t => setConclusion now t st
  | LoadFromData d => loadFromData d st
  | MergeFromData d ts => mergeFromData now d ts st
  | ClearAll => clearAll st
  end.

Definition isLocalEdit (a : Action) : bool :=
  match a with
  | UpdateInspection _ | SetCategories _ | AddPhotoToCategory _
  | RemovePhotoFromCategory _ _ | UpdatePhotoInCategory _ _ _
  | AddAdditionalPartToCategory _ _
  | RemoveAdditionalPartFromCategory _ _ | SetConclusion _ => true
  | _ => false
  end.

Definition isServerData (a : Action) : bool :=
  match a with
  | LoadFromData _ | MergeFromData _ _ => true
  | _ => false
  end.

(** The [persist] options: [version: STORAGE_VERSION] and [migrate]. *)
Definition STORAGE_VERSION : Z := 3.

Definition VALID_CATEGORY_IDS : list string := map def_id DEFAULT_CATEGORIES.

(** [ids.includes(id)] *)
Definition includes (ids : list string) (id : string) : bool :=
  existsb (String.eqb id) ids.

(** What [persist] hands to [migrate]: the stored keys of the state, any of
    which an older snapshot may lack. *)
Record PersistedState := mkPersisted {
  ps_inspection : option (gmap string Js.FieldVal);
  ps_categories : option (list PhotoCategory);
  ps_conclusion : option string;
  ps_lastLocalEdit : option Z
}.

Definition migrate (persistedState : PersistedState) (version : Z)
    : PersistedState :=
  if (version <? STORAGE_VERSION)%Z then
    match ps_categories persistedState with
    | Some cats =>
        {| ps_inspection := ps_inspection persistedState;
           ps_categories :=
             Some (List.filter (λ cat, includes VALID_CATEGORY_IDS (id cat)) cats);
           ps_conclusion := ps_conclusion persistedState;
           ps_lastLocalEdit := ps_lastLocalEdit persistedState |}
    | None => persistedState
    end
  else persistedState.

End Defaults.

(** The category an action edits, for the actions that edit one. *)
Definition targetCategory (a : Action) : option string :=
  match a with
  | AddPhotoToCategory c | RemovePhotoFromCategory c _
  | UpdatePhotoInCategory c _ _ | AddAdditionalPartToCategory c _
  | RemoveAdditionalPartFromCategory c _ => Some c
  | _ => None
  end.

End HomeReportStore.

(** ** The collaboration protocol handler ([POST] of the collaboration route) *)

Module Collab.

(** A JSON value: the report payload is opaque to the handler, which only
    stores it, returns it and tests its truthiness. *)
#[warnings="-register-all"]
Inductive Json :=
| JNull
| JBool (b : bool)
| JNum (z : Z)
| JStr (s : string)
| JArr (items : list Json)
| JObj (members : list (string * Json)).

Definition json_truthy (j : Json) : bool :=
  match j with
  | JNull => false
  | JBool b => b
  | JNum z => Js.num_truthy z
  | JStr s => Js.str_truthy s
  | JArr _ | JObj _ => true
  end.

(** Truthiness of an optional request field; [None] is [undefined]. *)
Definition opt_json_truthy (o : option Json) : bool :=
  match o with
  | Some j => json_truthy j
  | None => false
  end.

(** An entry of [users]: [{ id, joinedAt, lastSeen }]. *)
Record User := mkUser {
  u_id : option string;
  u_joinedAt : Z;
  u_lastSeen : Z
}.

(** [interface SessionUpdate] *)
Record SessionUpdate := mkUpdate {
  su_userId : option string;
  su_type : string;
  su_data : option Json;
  su_field : option string;
  su_value : option Json;
  su_timestamp : Z
}.

(** The payload kept, serialized, in the [data] column.  Serializing and
    parsing are inverse to each other on these values, so the column holds
    the parsed form; a key that is missing or [undefined] is [None]. *)
Record SessionData := mkSessionData {
  sd_data : option Json;
  sd_users : option (gmap string User);
  sd_updates : option (list SessionUpdate);
  sd_lastUpdated : option Z
}.

(** A row of the [sharedSession] table. *)
Record SharedSession := mkSharedSession {
  row_sessionId : string;
  row_creatorId : string;
  row_creatorName : string;
  row_reportType : string;
  row_permission : string;
  row_data : SessionData;
  row_expiresAt : Z
}.

Abbreviation DB := (gmap string SharedSession).

(** Modelled from the spec: the Session Store, "durable key-value storage of
    one Session per sessionId" with create/read/update/delete by
    [sessionId].  [None] is a rejected operation (a thrown error): creating
    under an identifier in use, updating or deleting a missing record. *)
Definition findUnique (sessionId : string) (db : DB) : option SharedSession :=
  db !! sessionId.

Definition db_create (row : SharedSession) (db : DB) : option DB :=
  match db !! row_sessionId row with
  | Some _ => None
  | None => Some (<[row_sessionId row := row]> db)
  end.

(** [update({ where, data: { data } })] rewrites the [data] column only. *)
Definition withData (data : SessionData) (row : SharedSession) : SharedSession :=
  {| row_sessionId := row_sessionId row;
     row_creatorId := row_creatorId row;
     row_creatorName := row_creatorName row;
     row_reportType := row_reportType row;
     row_permission := row_permission row;
     row_data := data;
     row_expiresAt := row_expiresAt row |}.

Definition db_update (sessionId : string) (data : SessionData) (db : DB)
    : option DB :=
  match db !! sessionId with
  | Some row => Some (<[sessionId := withData data row]> db)
  | None => None
  end.

Definition db_delete (sessionId : string) (db : DB) : option DB :=
  match db !! sessionId with
  | Some _ => Some (delete sessionId db)
  | None => None
  end.

(** The request body after destructuring. *)
Record Body := mkBody {
  action : string;
  sessionId : string;
  userId : option string;
  data : option Json;
  type : option string;
  field : option string;
  value : option Json;
  timestamp : option Z;
  lastUpdate : option Z;
  initialData : option Json
}.

(** [NextResponse.json(body, { status })]; the status is 200 when none is
    given, and a key the handler does not set is [None]. *)
Record Response := mkResponse {
  status : Z;
  success : bool;
  error : option string;
  res_sessionId : option string;
  res_shareLink : option string;
  res_data : option Json;
  res_userCount : option nat;
  res_updates : option (list SessionUpdate);
  res_timestamp : option Z
}.

Definition failure (st : Z) (msg : string) : Response :=
  {| status := st; success := false; error := Some msg;
     res_sessionId := None; res_shareLink := None; res_data := None;
     res_userCount := None; res_updates := None; res_timestamp := None |}.

Definition ok : Response :=
  {| status := 200; success := true; error := None;
     res_sessionId := None; res_shareLink := None; res_data := None;
     res_userCount := None; res_updates := None; res_timestamp := None |}.

Definition notFound : Response := failure 404 "Session not found".

(** The two environment variables the share link is built from. *)
Record Env := mkEnv {
  NEXTAUTH_URL : option string;
  VERCEL_URL : option string
}.

Definition chars : string :=
  "ABCDEFGHIJKLMNOPQRSTUVWXYZabcdefghijklmnopqrstuvwxyz0123456789".

(** [s.charAt(i)]: the empty string out of range. *)
Definition charAt (s : string) (i : nat) : string :=
  match String.get i s with
  | Some c => String c EmptyString
  | None => EmptyString
  end.

(** [generateId(length)].  [draw i] is the value of
    [Math.floor(Math.random() * chars.length)] in iteration [i]. *)
Definition generateId (draw : nat → nat) (length : nat) : string :=
  foldl (λ result i, result +:+ charAt chars (draw i)) "" (seq 0 length).

(** The alphabet of a session identifier: ASCII letters and digits. *)
Definition isAlnum (c : Ascii.ascii) : bool :=
  let n := Ascii.nat_of_ascii c in
  ((48 <=? n) && (n <=? 57) || (65 <=? n) && (n <=? 90)
   || (97 <=? n) && (n <=? 122))%nat.

Fixpoint allAlnum (s : string) : bool :=
  match s with
  | EmptyString => true
  | String c r => isAlnum c && allAlnum r
  end.

Definition maxInactive : Z := 5 * 60 * 1000.

(** [u => now - u.timestamp < 5 * 60 * 1000] *)
Definition recent (now : Z) (u : SessionUpdate) : bool :=
  (now - su_timestamp u <? maxInactive)%Z.

(** The property key [users[userId]] reads and writes. *)
Definition userKey (userId : option string) : string :=
  default "undefined" userId.

(** [users[key] = user].  The assignment adds or replaces an own property
    of [users], except under the key [__proto__]: there it sets the
    prototype of the object, which keeps the properties it had (the ones
    [Object.keys] and [JSON.stringify] see). *)
Definition setUser (key : string) (u : User) (users : gmap string User)
    : gmap string User :=
  if String.eqb key "__proto__" then users else <[key := u]> users.

Definition withUsers (us : option (gmap string User)) (sd : SessionData)
    : SessionData :=
  {| sd_data := sd_data sd; sd_users := us;
     sd_updates := sd_updates sd; sd_lastUpdated := sd_lastUpdated sd |}.

Definition createCase (env : Env) (draw : nat → nat) (now : Z) (db : DB)
    (body : Body) : option (DB * Response) :=
  let newSessionId := generateId draw 8 in
  let host := Js.opt_or (NEXTAUTH_URL env) (VERCEL_URL env) in
  let baseUrl :=
    if Js.opt_truthy host then "https://" +:+ default "" host else "" in
  let shareLink := baseUrl +:+ "/report/" +:+ newSessionId in
  db' ← db_create
          {| row_sessionId := newSessionId;
             row_creatorId :=
               match userId body with
               | Some u => Js.str_or u "collaboration"
               | None => "collaboration"
               end;
             row_creatorName := "Collaboration Session";
             row_reportType := "collaboration";
             row_permission := "edit";
             row_data :=
               {| sd_data :=
                    Some (if opt_json_truthy (data body)
                          then default JNull (data body) else JNull);
                  sd_users := Some ∅;
                  sd_updates := Some [];
                  sd_lastUpdated := Some now |};
             row_expiresAt := now + 24 * 60 * 60 * 1000 |}
          db;
  Some (db',
        {| status := 200; success := true; error := None;
           res_sessionId := Some newSessionId;
           res_shareLink := Some shareLink; res_data := None;
           res_userCount := None; res_updates := None;
           res_timestamp := None |}).

Definition joinCase (now : Z) (db : DB) (body : Body)
    : option (DB * Response) :=
  match findUnique (sessionId body) db with
  | None => Some (db, notFound)
  | Some session =>
      let sessionData := row_data session in
      let users :=
        setUser (userKey (userId body))
          {| u_id := userId body; u_joinedAt := now; u_lastSeen := now |}
          (default ∅ (sd_users sessionData)) in
      let sessionData :=
        if opt_json_truthy (initialData body) then
          {| sd_data := initialData body; sd_users := Some users;
             sd_updates := sd_updates sessionData;
             sd_lastUpdated := Some now |}
        else withUsers (Some users) sessionData in
      db' ← db_update (sessionId body) sessionData db;
      Some (db',
            {| status := 200; success := true; error := None;
               res_sessionId := Some (row_sessionId session);
               res_shareLink := None; res_data := sd_data sessionData;
               res_userCount := Some (size users); res_updates := None;
               res_timestamp := None |})
  end.

Definition leaveCase (db : DB) (body : Body) : option (DB * Response) :=
  match findUnique (sessionId body) db, userId body with
  | Some session, Some uid =>
      if Js.str_truthy uid then
        let sessionData := row_data session in
        match sd_users sessionData with
        | Some users =>
            match users !! uid with
            | Some _ =>
                db' ← db_update (sessionId body)
                        (withUsers (Some (delete uid users)) sessionData) db;
                Some (db', ok)
            | None => Some (db, ok)
            end
        | None => Some (db, ok)
        end
      else Some (db, ok)
  | _, _ => Some (db, ok)
  end.

(** [if (userId && sessionData.users && sessionData.users[userId])
      sessionData.users[userId].lastSeen = Date.now()] *)
Definition refresh (now : Z) (u : User) : User :=
  {| u_id := u_id u; u_joinedAt := u_joinedAt u; u_lastSeen := now |}.

Definition touch (now : Z) (userId : option string)
    (users : option (gmap string User)) : option (gmap string User) :=
  match userId, users with
  | Some uid, Some us =>
      if Js.str_truthy uid then
        match us !! uid with
        | Some u => Some (<[uid := refresh now u]> us)
        | None => users
        end
      else users
  | _, _ => users
  end.

(** The [forEach] that deletes every user with
    [now - lastSeen > maxInactive]. *)
Definition pruneUsers (now : Z) (us : gmap string User) : gmap string User :=
  filter (λ kv, ¬ (now - u_lastSeen kv.2 > maxInactive)) us.

Definition pollCase (now : Z) (db : DB) (body : Body)
    : option (DB * Response) :=
  match findUnique (sessionId body) db with
  | None => Some (db, notFound)
  | Some session =>
      let sessionData := row_data session in
      let users := touch now (userId body) (sd_users sessionData) in
      let users := pruneUsers now <$> users in
      let updates := List.filter (recent now) <$> sd_updates sessionData in
      let newUpdates :=
        List.filter
          (λ u, (su_timestamp u >? Js.num_or (lastUpdate body) 0)%Z)
          (default [] updates) in
      db' ← db_update (sessionId body)
              {| sd_data := sd_data sessionData; sd_users := users;
                 sd_updates := updates;
                 sd_lastUpdated := sd_lastUpdated sessionData |} db;
      Some (db',
            {| status := 200; success := true; error := None;
               res_sessionId := None; res_shareLink := None;
               res_data := None;
               res_userCount := Some (size (default ∅ users));
               res_updates := Some newUpdates;
               res_timestamp := Some now |})
  end.

(** [type === 'field'] *)
Definition isField (body : Body) : bool :=
  bool_decide (type body = Some "field").

(** The [update] object the 'update' case builds and pushes. *)
Definition updateEvent (now : Z) (body : Body) : SessionUpdate :=
  {| su_userId := userId body;
     su_type :=
       match type body with
       | Some t => Js.str_or t "full"
       | None => "full"
       end;
     su_data := if isField body then None else data body;
     su_field := if isField body then field body else None;
     su_value := if isField body then value body else None;
     su_timestamp := Js.num_or (timestamp body) now |}.

Definition updateCase (now : Z) (db : DB) (body : Body)
    : option (DB * Response) :=
  match findUnique (sessionId body) db with
  | None => Some (db, notFound)
  | Some session =>
      let sessionData := row_data session in
      let update := updateEvent now body in
      let newData :=
        if isField body then sd_data sessionData else data body in
      let updates := (default [] (sd_updates sessionData) ++ [update])%list in
      db' ← db_update (sessionId body)
              {| sd_data := newData; sd_users := sd_users sessionData;
                 sd_updates := Some (List.filter (recent now) updates);
                 sd_lastUpdated := Some now |} db;
      Some (db', ok)
  end.

Definition getCase (db : DB) (body : Body) : option (DB * Response) :=
  match findUnique (sessionId body) db with
  | None => Some (db, notFound)
  | Some session =>
      let sessionData := row_data session in
      Some (db,
            {| status := 200; success := true; error := None;
               res_sessionId := Some (row_sessionId session);
               res_shareLink := None; res_data := sd_data sessionData;
               res_userCount :=
                 Some (size (default ∅ (sd_users sessionData)));
               res_updates := None; res_timestamp := None |})
  end.

(** [db.sharedSession.delete(...).catch(() => {})] *)
Definition deleteCase (db : DB) (body : Body) : option (DB * Response) :=
  Some (default db (db_delete (sessionId body) db), ok).

Definition dispatch (env : Env) (draw : nat → nat) (now : Z) (db : DB)
    (body : Body) : option (DB * Response) :=
  if String.eqb (action body) "create" then createCase env draw now db body
  else if String.eqb (action body) "join" then joinCase now db body
  else if String.eqb (action body) "leave" then leaveCase db body
  else if String.eqb (action body) "poll" then pollCase now db body
  else if String.eqb (action body) "update" then updateCase now db body
  else if String.eqb (action body) "get" then getCase db body
  else if String.eqb (action body) "delete" then deleteCase db body
  else Some (db, failure 400 "Invalid action").

(** The handler: the [switch] inside [try], and the [catch] that answers
    500 for whatever is thrown there.  [body] is a request body that parsed
    to an object naming its [sessionId], and [db] a store that is reachable
    and holds well-formed payloads; what is thrown is then an operation the
    store rejects on its contents.  A body that does not parse, a payload
    that is not JSON and a store out of reach also end in the [catch]; they
    are no values of [Body] and [DB]. *)
Definition POST (env : Env) (draw : nat → nat) (now : Z) (db : DB)
    (body : Body) : DB * Response :=
  match dispatch env draw now db body with
  | Some r => r
  | None => (db, failure 500 "Internal server error")
  end.

(** The columns [createdAt] and [updatedAt] of a row, which the store
    maintains by itself, in milliseconds ([getTime()]). *)
Record Columns := mkColumns {
  createdAt : Z;
  updatedAt : Z
}.

(** The body and status of the answers of the status query [GET]. *)
Record StatusResponse := mkStatusResponse {
  st_status : Z;
  st_success : bool;
  st_error : option string;
  st_exists : option bool;
  st_createdAt : option Z;
  st_lastUpdated : option Z;
  st_userCount : option nat
}.

(** [GET ?sessionId=...]; [sessionId] is [searchParams.get('sessionId')],
    [None] when the parameter is missing. *)
Definition GET (columns : SharedSession → Columns) (db : DB)
    (sessionId : option string) : StatusResponse :=
  match sessionId with
  | Some sid =>
      if Js.str_truthy sid then
        match findUnique sid db with
        | None =>
            {| st_status := 200; st_success := false; st_error := None;
               st_exists := Some false; st_createdAt := None;
               st_lastUpdated := None; st_userCount := None |}
        | Some session =>
            let sessionData := row_data session in
            {| st_status := 200; st_success := true; st_error := None;
               st_exists := Some true;
               st_createdAt := Some (createdAt (columns session));
               st_lastUpdated :=
                 Some (Js.num_or (sd_lastUpdated sessionData)
                                 (updatedAt (columns session)));
               st_userCount :=
                 Some (size (default ∅ (sd_users sessionData))) |}
        end
      else
        {| st_status := 400; st_success := false;
           st_error := Some "Session ID required"; st_exists := None;
           st_createdAt := None; st_lastUpdated := None;
           st_userCount := None |}
  | None =>
      {| st_status := 400; st_success := false;
         st_error := Some "Session ID required"; st_exists := None;
         st_createdAt := None; st_lastUpdated := None;
         st_userCount := None |}
  end.

End Collab.

(** ** The provisioning route ([GET] and [POST] of [api/setup]) *)

Module Setup.

Section Provisioning.

(** An entry of [PREDEFINED_USERS]: [{ id, email, name, password }]. *)
Record PredefinedUser := mkPredefined {
  pu_id : string;
  pu_email : string;
  pu_name : string;
  pu_password : string
}.

(** A row of the [user] table. *)
Record UserRow := mkUserRow {
  usr_id : string;
  usr_email : string;
  usr_name : string;
  usr_password : string;
  usr_createdAt : Z
}.

(** The constant of [@/lib/auth]. *)
Variable PREDEFINED_USERS : list PredefinedUser.

(** [bcrypt.hash(password, 10)]; the first argument counts the earlier
    calls of the request, since every call salts anew. *)
Variable bcryptHash : nat → string → string.

(** Whether [db.user.create] rejects a row for the table as it stands (a
    uniqueness constraint, say) and throws. *)
Variable rejects : list UserRow → UserRow → bool.

Record Response := mkResponse {
  status : Z;
  success : option bool;
  error : option string;
  message : option string;
  created : option nat;
  existing : option nat
}.

(** [db.user.findUnique({ where: { email } })] *)
Definition findByEmail (email : string) (table : list UserRow) : option UserRow :=
  List.find (λ r, String.eqb (usr_email r) email) table.

(** The [for ... of PREDEFINED_USERS] loop.  The result is the table as the
    loop leaves it and the counters, or [None] for them when a [create]
    has thrown. *)
Fixpoint provision (now : Z) (users : list PredefinedUser)
    (table : list UserRow) (nCreated nExisting : nat)
    : list UserRow * option (nat * nat) :=
  match users with
  | [] => (table, Some (nCreated, nExisting))
  | user :: rest =>
      match findByEmail (pu_email user) table with
      | None =>
          let row := {| usr_id := pu_id user; usr_email := pu_email user;
                        usr_name := pu_name user;
                        usr_password := bcryptHash nCreated (pu_password user);
                        usr_createdAt := now |} in
          if rejects table row then (table, None)
          else provision now rest (table ++ [row]) (S nCreated) nExisting
      | Some _ => provision now rest table nCreated (S nExisting)
      end
  end.

Definition POST (now : Z) (table : list UserRow) (secret : option string)
    : list UserRow * Response :=
  if negb (bool_decide (secret = Some "z-services-setup-2024")) then
    (table, {| status := 401; success := None; error := Some "Unauthorized";
               message := None; created := None; existing := None |})
  else
    match provision now PREDEFINED_USERS table 0 0 with
    | (table', Some (c, e)) =>
        (table', {| status := 200; success := Some true; error := None;
                    message :=
                      Some ("Setup completo: " +:+ pretty c
                            +:+ " usuários criados, " +:+ pretty e
                            +:+ " já existiam");
                    created := Some c; existing := Some e |})
    | (table', None) =>
        (table', {| status := 500; success := None;
                    error := Some "Setup failed"; message := None;
                    created := None; existing := None |})
    end.

End Provisioning.

End Setup.

(** * Properties *)

(** ** JavaScript primitives *)

Section JsFacts.

Lemma str_truthy_false (s : string) : Js.str_truthy s = false ↔ s = "".
Proof.
  unfold Js.str_truthy. rewrite negb_false_iff. apply String.eqb_eq.
Qed.

Lemma str_truthy_true (s : string) : Js.str_truthy s = true ↔ s ≠ "".
Proof.
  unfold Js.str_truthy. rewrite negb_true_iff. apply String.eqb_neq.
Qed.

Lemma str_or_decide (a b : string) :
  Js.str_or a b = if decide (a = "") then b else a.
Proof.
  unfold Js.str_or. destruct (Js.str_truthy a) eqn:E.
  - apply str_truthy_true in E. by rewrite decide_False.
  - apply str_truthy_false in E. by rewrite decide_True.
Qed.

Lemma str_or_fallback (a b : string) :
  Js.str_or (Js.str_or a b) "" = if decide (a = "") then b else a.
Proof.
  rewrite !str_or_decide.
  destruct (decide (a = "")) as [->|Ha]; simpl.
  - by destruct (decide (b = "")) as [->|].
  - by rewrite decide_False.
Qed.

Lemma str_or_same (a : string) : Js.str_or a a = a.
Proof. unfold Js.str_or. by destruct (Js.str_truthy a). Qed.

Lemma opt_or_same (a : option string) : Js.opt_or a a = a.
Proof. unfold Js.opt_or. by destruct (Js.opt_truthy a). Qed.

Lemma has_value_truthy (v : Js.FieldVal) : Js.has_value v = Js.truthy v.
Proof. by destruct v. Qed.

End JsFacts.

(** ** Photo-sequence merge *)

Section MergePhotos.

Implicit Types l s : list Photo.t.

Lemma pairwise_nil_r l : Merge.pairwise l [] = l.
Proof. by destruct l. Qed.

Lemma pairwise_length l s :
  length (Merge.pairwise l s) = Nat.max (length l) (length s).
Proof.
  revert s. induction l as [|a l IH]; intros [|x s]; simpl; auto.
Qed.

Lemma pairwise_lookup l s i :
  Merge.pairwise l s !! i =
    match l !! i, s !! i with
    | Some a, Some x => Some (Merge.mergePhoto a x)
    | Some a, None => Some a
    | None, Some x => Some x
    | None, None => None
    end.
Proof.
  revert s i. induction l as [|a l IH]; intros s i.
  - simpl. by destruct (s !! i).
  - destruct s as [|x s]; simpl.
    + by destruct ((a :: l) !! i).
    + destruct i as [|i]; simpl; [done | apply IH].
Qed.

Lemma mergeStep_pairwise l s n :
  (n < Nat.max (length l) (length s))%nat →
  Merge.mergeStep l s (take n (Merge.pairwise l s)) n
  = take (S n) (Merge.pairwise l s).
Proof.
  intros Hn. rewrite <- pairwise_length in Hn.
  apply lookup_lt_is_Some_2 in Hn as [y Hy].
  rewrite (take_S_r _ _ _ Hy).
  rewrite pairwise_lookup in Hy. unfold Merge.mergeStep.
  destruct (l !! n), (s !! n); by simplify_eq.
Qed.

Lemma mergeLoop_take l s n :
  (n ≤ Nat.max (length l) (length s))%nat →
  foldl (Merge.mergeStep l s) [] (seq 0 n) = take n (Merge.pairwise l s).
Proof.
  induction n as [|n IH]; intros Hn.
  - by rewrite take_0.
  - rewrite seq_S, foldl_app. simpl. rewrite IH by lia.
    apply mergeStep_pairwise. lia.
Qed.

Lemma mergePhotos_pairwise l s : Merge.mergePhotos l s = Merge.pairwise l s.
Proof.
  unfold Merge.mergePhotos.
  destruct (Nat.eqb_spec (length s) 0) as [Hs|Hs].
  - apply nil_length_inv in Hs as ->. by rewrite pairwise_nil_r.
  - destruct (Nat.eqb_spec (length l) 0) as [Hl|Hl].
    + by apply nil_length_inv in Hl as ->.
    + rewrite mergeLoop_take by done.
      apply take_ge. by rewrite pairwise_length.
Qed.

Lemma mergePhoto_same (a : Photo.t) : Merge.mergePhoto a a = a.
Proof.
  destruct a as [i d p sn pnm q c im ed em h]. unfold Merge.mergePhoto. simpl.
  rewrite !str_or_fallback, str_or_same, !opt_or_same, orb_diag.
  f_equal; try by case_decide.
  by destruct (0 <? length em)%nat.
Qed.

Lemma mergePhotos_same l : Merge.mergePhotos l l = l.
Proof.
  rewrite mergePhotos_pairwise.
  induction l as [|a l IH]; simpl; [done|].
  by rewrite mergePhoto_same, IH.
Qed.

Lemma opt_or_prefer (a b : option string) : Js.opt_or a b = Merge.preferImage a b.
Proof.
  unfold Js.opt_or, Merge.preferImage, Js.opt_truthy. destruct a as [x|].
  - destruct (Js.str_truthy x) eqn:E.
    + apply str_truthy_true in E. case_decide as H; [|done].
      destruct H; simplify_eq.
    + apply str_truthy_false in E as ->. case_decide as H; [done|].
      destruct H; auto.
  - case_decide as H; [done|]. destruct H; auto.
Qed.

(** C5. The photo-sequence merge is positional: the result has
    [max(len(local), len(incoming))] entries; at every index an entry
    present on one side only passes through unchanged and an entry present
    on both sides is their field-wise merge, in which every field is the
    incoming value when that is non-empty and the local value otherwise, the
    [hasAdditionalParts] flag being the disjunction of both sides.  Merging
    local [A, B] with server [X] gives [merge(A, X), B]. *)
Theorem mergePhotos_positional :
  (∀ l s, length (Merge.mergePhotos l s) = Nat.max (length l) (length s))
  ∧ (∀ l s (i : nat),
       Merge.mergePhotos l s !! i =
         match l !! i, s !! i with
         | Some a, Some x => Some (Merge.mergePhoto a x)
         | Some a, None => Some a
         | None, Some x => Some x
         | None, None => None
         end)
  ∧ (∀ a x : Photo.t,
       let m := Merge.mergePhoto a x in
       Photo.id m = Merge.preferStr (Photo.id x) (Photo.id a)
       ∧ Photo.description m = Merge.preferStr (Photo.description x) (Photo.description a)
       ∧ Photo.pn m = Merge.preferStr (Photo.pn x) (Photo.pn a)
       ∧ Photo.serialNumber m = Merge.preferStr (Photo.serialNumber x) (Photo.serialNumber a)
       ∧ Photo.partName m = Merge.preferStr (Photo.partName x) (Photo.partName a)
       ∧ Photo.quantity m = Merge.preferStr (Photo.quantity x) (Photo.quantity a)
       ∧ Photo.criticality m = Merge.preferStr (Photo.criticality x) (Photo.criticality a)
       ∧ Photo.imageData m = Merge.preferImage (Photo.imageData x) (Photo.imageData a)
       ∧ Photo.editedImageData m
         = Merge.preferImage (Photo.editedImageData x) (Photo.editedImageData a)
       ∧ Photo.embeddedPhotos m
         = Merge.preferList (Photo.embeddedPhotos x) (Photo.embeddedPhotos a)
       ∧ Photo.hasAdditionalParts m
         = (Photo.hasAdditionalParts x || Photo.hasAdditionalParts a))
  ∧ (∀ A B X : Photo.t,
       Merge.mergePhotos [A; B] [X] = [Merge.mergePhoto A X; B]).
Proof.
  split; [|split; [|split]].
  - intros l s. by rewrite mergePhotos_pairwise, pairwise_length.
  - intros l s i. by rewrite mergePhotos_pairwise, pairwise_lookup.
  - intros a x. simpl. unfold Merge.preferStr.
    rewrite !str_or_fallback, str_or_decide, !opt_or_prefer.
    repeat split.
    unfold Merge.preferList. by destruct (Photo.embeddedPhotos x).
  - intros A B X. by rewrite mergePhotos_pairwise.
Qed.

End MergePhotos.

(** ** Inspection merge of the flat store *)

Section FlatInspection.

Implicit Types local server : gmap string Js.FieldVal.

(** The loop, key by key: a server value that is present replaces the
    local one, anything else leaves it alone. *)
Lemma flat_fold_lookup local server (k : string) :
  (map_fold ReportStore.mergeField (local, false) server).1 !! k =
    match server !! k with
    | Some v => if Js.has_value v then Some v else local !! k
    | None => local !! k
    end.
Proof.
  revert k.
  apply (map_fold_weak_ind
           (λ r m, ∀ k, r.1 !! k =
                          match m !! k with
                          | Some v => if Js.has_value v then Some v else local !! k
                          | None => local !! k
                          end)).
  - intros k. by rewrite lookup_empty.
  - intros i x m r Hi IH k. unfold ReportStore.mergeField.
    destruct (decide (i = k)) as [->|Hne].
    + rewrite lookup_insert_eq.
      destruct (Js.has_value x) eqn:Hx; [|by rewrite IH, Hi].
      unfold Js.strict_eq, Js.get.
      case_bool_decide as Heq; simpl; [|by rewrite lookup_insert_eq].
      destruct (r.1 !! k) as [y|] eqn:Hy; simpl in Heq; by subst.
    + rewrite lookup_insert_ne by done. rewrite <- IH.
      destruct (Js.has_value x); [|done].
      destruct (negb _); [|done]. simpl. by rewrite lookup_insert_ne.
Qed.

(** When every valued server field already equals the local one nothing
    is written and [hasChanges] stays [false]. *)
Lemma flat_fold_unchanged local server :
  (∀ k v, server !! k = Some v → Js.has_value v = true → local !! k = Some v) →
  map_fold ReportStore.mergeField (local, false) server = (local, false).
Proof.
  apply (map_fold_weak_ind
           (λ r m, (∀ k v, m !! k = Some v → Js.has_value v = true →
                           local !! k = Some v) → r = (local, false))).
  - done.
  - intros i x m r Hi IH Hagree.
    rewrite IH.
    2:{ intros k v Hk. apply Hagree. rewrite lookup_insert_ne; [done|].
        intros ->. congruence. }
    unfold ReportStore.mergeField. simpl.
    destruct (Js.has_value x) eqn:Hx; [|done].
    specialize (Hagree i x (lookup_insert_eq _ _ _) Hx).
    unfold Js.strict_eq, Js.get. rewrite Hagree. simpl.
    by rewrite bool_decide_eq_true_2.
Qed.

Lemma get_flat_fold local server (k : string) :
  Js.get (map_fold ReportStore.mergeField (local, false) server).1 k =
    if Js.has_value (Js.get server k) then Js.get server k else Js.get local k.
Proof.
  unfold Js.get. rewrite flat_fold_lookup.
  destruct (server !! k) as [v|]; simpl; [|done].
  by destruct (Js.has_value v).
Qed.

End FlatInspection.

(** ** The flat store's merge *)

Section FlatMerge.

Import ReportStore.





(** C10. The flat store's merge never consults [serverTimestamp]: two
    invocations that differ only in that argument produce the same
    inspection, photos and conclusion (and the same state and flag). *)
Theorem flat_merge_ignores_timestamp (st : State) (data : Data)
    (ts1 ts2 : option Z) :
  inspection (mergeFromData data ts1 st) = inspection (mergeFromData data ts2 st)
  ∧ photos (mergeFromData data ts1 st) = photos (mergeFromData data ts2 st)
  ∧ conclusion (mergeFromData data ts1 st) = conclusion (mergeFromData data ts2 st)
  ∧ mergeFromData data ts1 st = mergeFromData data ts2 st
  ∧ hasChanges (mergeResult data ts1 st) = hasChanges (mergeResult data ts2 st).
Proof. done. Qed.

End FlatMerge.

(** ** The category-aware store's merge *)

Section HomeMerge.

Import HomeReportStore.

Implicit Types local server : gmap string Js.FieldVal.

Lemma mergeField_adopts local (serverTime localEditTime : Z) (k : string)
    (v : Js.FieldVal) (acc : gmap string Js.FieldVal) :
  mergeField local serverTime localEditTime k v acc =
    if adopts serverTime localEditTime (Js.get local k) v
    then <[k:=v]> acc else acc.
Proof.
  unfold mergeField, adopts, Js.strict_eq.
  destruct (Js.truthy v); simpl; [|done].
  destruct (Js.truthy (Js.get local k)) eqn:Hl; simpl; [|done].
  rewrite bool_decide_eq_false_2; [done|].
  intros E. by rewrite E in Hl.
Qed.

Lemma mergeInspection_lookup local server (serverTime localEditTime : Z)
    (k : string) :
  mergeInspection local serverTime localEditTime server !! k =
    match server !! k with
    | Some v =>
        if adopts serverTime localEditTime (Js.get local k) v
        then Some v else local !! k
    | None => local !! k
    end.
Proof.
  unfold mergeInspection. revert k.
  apply (map_fold_weak_ind
           (λ r m, ∀ k, r !! k =
                          match m !! k with
                          | Some v =>
                              if adopts serverTime localEditTime (Js.get local k) v
                              then Some v else local !! k
                          | None => local !! k
                          end)).
  - intros k. by rewrite lookup_empty.
  - intros i x m r Hi IH k. rewrite mergeField_adopts.
    destruct (decide (i = k)) as [->|Hne].
    + rewrite lookup_insert_eq.
      destruct (adopts _ _ _ x); [by rewrite lookup_insert_eq|].
      by rewrite IH, Hi.
    + rewrite (lookup_insert_ne m) by done. rewrite <- IH.
      destruct (adopts _ _ _ x); [|done]. by rewrite lookup_insert_ne.
Qed.

Lemma get_mergeInspection local server (serverTime localEditTime : Z)
    (k : string) :
  Js.get (mergeInspection local serverTime localEditTime server) k =
    if adopts serverTime localEditTime (Js.get local k) (Js.get server k)
    then Js.get server k else Js.get local k.
Proof.
  unfold Js.get at 1. rewrite mergeInspection_lookup.
  unfold Js.get at 3 4. destruct (server !! k) as [v|]; simpl.
  - by destruct (adopts _ _ _ v).
  - unfold adopts. done.
Qed.

(** The early return: a strictly newer local edit leaves the state alone,
    whatever the payload. *)
Lemma home_merge_skipped (now : Z) (data : Data) (ts : option Z) (st : State) :
  localIsNewer now ts st = true → mergeFromData now data ts st = st.
Proof. intros H. unfold mergeFromData. by rewrite H. Qed.

Lemma localIsNewer_true (now : Z) (ts : option Z) (st : State) :
  localIsNewer now ts st = true
  ↔ lastLocalEdit st > serverTimeOf ts now ∧ lastLocalEdit st > 0.
Proof.
  unfold localIsNewer, localEditTimeOf, Js.num_or, Js.num_truthy.
  rewrite andb_true_iff, !Z.gtb_gt.
  destruct (Z.eqb_spec (lastLocalEdit st) 0) as [->|]; simpl; lia.
Qed.

Lemma serverTimeOf_supplied (now ts : Z) :
  ts ≠ 0 → serverTimeOf (Some ts) now = ts.
Proof.
  intros H. unfold serverTimeOf, Js.num_or, Js.num_truthy.
  by destruct (Z.eqb_spec ts 0).
Qed.

Lemma serverTimeOf_defaulted (now : Z) (o : option Z) :
  o = None ∨ o = Some 0 → serverTimeOf o now = now.
Proof. by intros [-> | ->]. Qed.

Lemma serverTimeOf_now (now : Z) : serverTimeOf (Some now) now = now.
Proof.
  unfold serverTimeOf, Js.num_or, Js.num_truthy.
  by destruct (Z.eqb_spec now 0).
Qed.

(** The timestamp argument reaches the merge through [serverTimeOf] only. *)
Lemma home_merge_by_server_time (now : Z) (data : Data) (o o' : option Z)
    (st : State) :
  serverTimeOf o now = serverTimeOf o' now →
  mergeFromData now data o st = mergeFromData now data o' st.
Proof. intros H. unfold mergeFromData, localIsNewer. by rewrite H. Qed.

(** C1 (as amended). When a non-zero [serverTimestamp] is supplied,
    [lastLocalEdit > serverTimestamp] and [lastLocalEdit > 0], the
    timestamp-authoritative merge returns the local aggregate (inspection,
    categories, conclusion, and the rest of the state) unmodified, for every
    local state and payload.  A [serverTimestamp] that is absent or 0 is
    replaced by the current time before the comparison: the server time of
    the merge is then [now], the merge is the one of [serverTimestamp = now],
    and it returns the local state unmodified when [lastLocalEdit > now] and
    [lastLocalEdit > 0]. *)
Theorem home_merge_local_authoritative (now : Z) (st : State) (data : Data) :
  (∀ ts : Z, ts ≠ 0 → lastLocalEdit st > ts → lastLocalEdit st > 0 →
     mergeFromData now data (Some ts) st = st)
  ∧ (∀ o : option Z, o = None ∨ o = Some 0 →
       serverTimeOf o now = now
       ∧ mergeFromData now data o st = mergeFromData now data (Some now) st
       ∧ (lastLocalEdit st > now → lastLocalEdit st > 0 →
            mergeFromData now data o st = st)).
Proof.
  split.
  - intros ts Hts Hgt Hpos. apply home_merge_skipped, localIsNewer_true.
    by rewrite serverTimeOf_supplied.
  - intros o Ho. pose proof (serverTimeOf_defaulted now o Ho) as Hnow.
    split; [done|]. split.
    + apply home_merge_by_server_time. by rewrite Hnow, serverTimeOf_now.
    + intros Hgt Hpos. apply home_merge_skipped, localIsNewer_true.
      by rewrite Hnow.
Qed.

Lemma home_merge_local_authoritative_witness :
  let st := {| inspection := {["tag" := Js.FStr ""]}; categories := [];
               conclusion := "local"; lastLocalEdit := 2000 |} in
  let data := {| data_inspection := Some {["tag" := Js.FStr "T-1"]};
                 data_categories := None;
                 data_conclusion := Some "server" |} in
  mergeFromData 3000 data (Some 1000) st = st
  ∧ mergeFromData 1500 data None st = st
  ∧ mergeFromData 1500 data (Some 0) st = st.
Proof.
  intros st data.
  destruct (home_merge_local_authoritative 3000 st data) as [Hsome _].
  destruct (home_merge_local_authoritative 1500 st data) as [_ Hdef].
  split; [|split].
  - apply (Hsome 1000); simpl; lia.
  - apply (Hdef None); [by left | simpl; lia | simpl; lia].
  - apply (Hdef (Some 0)); [by right | simpl; lia | simpl; lia].
Defined.

(** C1 as stated does not hold: with [serverTimestamp = 0] the merge
    compares against the current time instead, so a local state with
    [lastLocalEdit > serverTimestamp] and [lastLocalEdit > 0] is still
    merged. *)
Lemma home_merge_zero_timestamp_merges :
  let st := {| inspection := ∅; categories := [];
               conclusion := ""; lastLocalEdit := 2000 |} in
  let data := {| data_inspection := None; data_categories := None;
                 data_conclusion := Some "server" |} in
  let serverTimestamp := 0 in
  lastLocalEdit st > serverTimestamp ∧ lastLocalEdit st > 0
  ∧ conclusion (mergeFromData 3000 data (Some serverTimestamp) st) = "server"
  ∧ mergeFromData 3000 data (Some serverTimestamp) st ≠ st.
Proof.
  simpl. repeat split; try lia. by vm_compute.
Qed.

Lemma flat_get_merged (st : ReportStore.State) (data : ReportStore.Data)
    (ts : option Z) (k : string) :
  Js.get (ReportStore.inspection (ReportStore.mergeFromData data ts st)) k =
    if Js.has_value (Js.get (default ∅ (ReportStore.data_inspection data)) k)
    then Js.get (default ∅ (ReportStore.data_inspection data)) k
    else Js.get (ReportStore.inspection st) k.
Proof.
  unfold ReportStore.mergeFromData, ReportStore.mergeResult. simpl.
  destruct (ReportStore.data_inspection data) as [i|]; simpl.
  - apply get_flat_fold.
  - unfold Js.get at 1 2. by rewrite lookup_empty.
Qed.

Lemma home_get_merged (now : Z) (st : State) (data : Data) (ts : option Z)
    (k : string) :
  Js.get (inspection (mergeFromData now data ts st)) k =
    if localIsNewer now ts st then Js.get (inspection st) k
    else if adopts (serverTimeOf ts now) (localEditTimeOf st)
                   (Js.get (inspection st) k)
                   (Js.get (default ∅ (data_inspection data)) k)
    then Js.get (default ∅ (data_inspection data)) k
    else Js.get (inspection st) k.
Proof.
  unfold mergeFromData. destruct (localIsNewer now ts st); [done|]. simpl.
  destruct (data_inspection data) as [i|]; simpl.
  - apply get_mergeInspection.
  - unfold adopts, Js.get at 2 3. by rewrite lookup_empty.
Qed.

(** C6 (as amended). For every inspection field with local value [L] and
    server value [S]: the unconditional merge always, and the
    timestamp-authoritative merge whenever it is not skipped because the
    local edit is newer, yield a non-empty value exactly when [L] or [S] is
    non-empty; and in both strategies, skipped or not, an empty or absent
    incoming value leaves the local value as it is and a populated local
    value never becomes empty. *)
Theorem inspection_field_priority (k : string) :
  (∀ (st : ReportStore.State) (data : ReportStore.Data) (ts : option Z),
     let L := Js.get (ReportStore.inspection st) k in
     let S := Js.get (default ∅ (ReportStore.data_inspection data)) k in
     let R := Js.get (ReportStore.inspection
                        (ReportStore.mergeFromData data ts st)) k in
     Js.has_value R = Js.has_value S || Js.has_value L
     ∧ (Js.has_value S = false → R = L)
     ∧ (Js.has_value L = true → Js.has_value R = true))
  ∧ (∀ (now : Z) (st : State) (data : Data) (ts : option Z),
     let L := Js.get (inspection st) k in
     let S := Js.get (default ∅ (data_inspection data)) k in
     let R := Js.get (inspection (mergeFromData now data ts st)) k in
     Js.has_value R
       = (if localIsNewer now ts st then Js.has_value L
          else Js.has_value S || Js.has_value L)
     ∧ (Js.has_value S = false → R = L)
     ∧ (Js.has_value L = true → Js.has_value R = true)).
Proof.
  split.
  - intros st data ts L S R. subst R. rewrite flat_get_merged. fold S L.
    destruct (Js.has_value S) eqn:HS; simpl; [by rewrite HS|done].
  - intros now st data ts L S R. subst R. rewrite home_get_merged. fold S L.
    unfold adopts.
    rewrite <- (has_value_truthy S), <- (has_value_truthy L).
    destruct (localIsNewer now ts st); [by destruct (Js.has_value S)|].
    destruct (Js.has_value S) eqn:HS, (Js.has_value L) eqn:HL; simpl;
      rewrite ?HS, ?HL; try done.
    by destruct (_ >? _)%Z; rewrite ?HS, ?HL.
Qed.

Lemma inspection_field_priority_witness :
  let st := {| inspection := {["tag" := Js.FStr "T-1"]}; categories := [];
               conclusion := ""; lastLocalEdit := 2000 |} in
  let data := {| data_inspection := Some {["tag" := Js.FStr ""]};
                 data_categories := None; data_conclusion := None |} in
  Js.has_value (Js.get {["tag" := Js.FStr ""]} "tag") = false
  ∧ Js.get (inspection (mergeFromData 3000 data (Some 2500) st)) "tag"
    = Js.FStr "T-1".
Proof.
  intros st data. split; [reflexivity|].
  apply (proj2 (inspection_field_priority "tag") 3000 st data (Some 2500)).
  reflexivity.
Defined.

(** C6 as stated does not hold for the timestamp-authoritative strategy:
    when the local edit is newer the merge is skipped, and an empty local
    field stays empty although the server value is populated. *)
Lemma skipped_merge_keeps_empty_field :
  let st := {| inspection := {["tag" := Js.FStr ""]}; categories := [];
               conclusion := ""; lastLocalEdit := 2000 |} in
  let data := {| data_inspection := Some {["tag" := Js.FStr "T-1"]};
                 data_categories := None; data_conclusion := None |} in
  Js.has_value (Js.get (default ∅ (data_inspection data)) "tag") = true
  ∧ Js.has_value
      (Js.get (inspection (mergeFromData 3000 data (Some 1000) st)) "tag")
    = false.
Proof. by vm_compute. Qed.

End HomeMerge.

(** ** Local Edit Tracker *)

Section LocalEditTracker.



End LocalEditTracker.

(** ** The collaboration protocol handler *)

Section CollabFacts.

Import Collab.

Implicit Types db : DB.

#[local] Arguments generateId : simpl never.

(** *** Session identifiers *)

Lemma length_append (a b : string) :
  String.length (a +:+ b) = (String.length a + String.length b)%nat.
Proof. induction a as [|c a IH]; simpl; [done | by rewrite IH]. Qed.

Lemma allAlnum_append (a b : string) :
  allAlnum (a +:+ b) = allAlnum a && allAlnum b.
Proof.
  induction a as [|c a IH]; simpl; [done|].
  by rewrite IH, andb_assoc.
Qed.

Lemma charAt_chars (i : nat) :
  (i < 62)%nat →
  ∃ c, charAt chars i = String c EmptyString ∧ isAlnum c = true.
Proof.
  intros Hi.
  do 62 (destruct i as [|i]; [by eexists|]).
  lia.
Qed.

Lemma generateId_loop (draw : nat → nat) (acc : string) (k n : nat) :
  (∀ i, draw i < 62)%nat →
  let r := foldl (λ result i, result +:+ charAt chars (draw i)) acc (seq k n) in
  String.length r = (String.length acc + n)%nat
  ∧ allAlnum r = allAlnum acc.
Proof.
  intros Hdraw. revert acc k.
  induction n as [|n IH]; intros acc k; simpl.
  - split; [lia | done].
  - destruct (IH (acc +:+ charAt chars (draw k)) (S k)) as [Hlen Hal].
    destruct (charAt_chars (draw k) (Hdraw k)) as (c & Hc & Hcal).
    rewrite Hlen, Hal, length_append, allAlnum_append, Hc. simpl.
    rewrite Hcal. split; [lia | by rewrite andb_true_r].
Qed.

Lemma generateId_shape (draw : nat → nat) (n : nat) :
  (∀ i, draw i < 62)%nat →
  String.length (generateId draw n) = n ∧ allAlnum (generateId draw n) = true.
Proof.
  intros Hdraw. apply (generateId_loop draw "" 0 n Hdraw).
Qed.

(** *** The handler, case by case *)

Lemma db_update_found db (sid : string) (row : SharedSession) (d : SessionData) :
  db !! sid = Some row → db_update sid d db = Some (<[sid := withData d row]> db).
Proof. intros H. unfold db_update. by rewrite H. Qed.

Lemma POST_get (env : Env) (draw : nat → nat) (now : Z) db (body : Body) :
  action body = "get" →
  POST env draw now db body =
    match db !! sessionId body with
    | None => (db, notFound)
    | Some session =>
        (db, {| status := 200; success := true; error := None;
                res_sessionId := Some (row_sessionId session);
                res_shareLink := None;
                res_data := sd_data (row_data session);
                res_userCount :=
                  Some (size (default ∅ (sd_users (row_data session))));
                res_updates := None; res_timestamp := None |})
    end.
Proof.
  intros Ha. unfold POST, dispatch, getCase, findUnique. rewrite Ha. simpl.
  by destruct (db !! sessionId body).
Qed.

Lemma POST_update (env : Env) (draw : nat → nat) (now : Z) db (body : Body) :
  action body = "update" →
  POST env draw now db body =
    match db !! sessionId body with
    | None => (db, notFound)
    | Some session =>
        (<[sessionId body :=
             withData
               {| sd_data := if isField body then sd_data (row_data session)
                             else data body;
                  sd_users := sd_users (row_data session);
                  sd_updates :=
                    Some (List.filter (recent now)
                            (default [] (sd_updates (row_data session))
                               ++ [updateEvent now body]));
                  sd_lastUpdated := Some now |} session]> db, ok)
    end.
Proof.
  intros Ha. unfold POST, dispatch, updateCase, findUnique. rewrite Ha. simpl.
  destruct (db !! sessionId body) as [session|] eqn:Hs; [|done].
  by rewrite (db_update_found _ _ _ _ Hs).
Qed.

Lemma POST_poll (env : Env) (draw : nat → nat) (now : Z) db (body : Body) :
  action body = "poll" →
  POST env draw now db body =
    match db !! sessionId body with
    | None => (db, notFound)
    | Some session =>
        let users :=
          pruneUsers now <$> touch now (userId body) (sd_users (row_data session)) in
        let updates :=
          List.filter (recent now) <$> sd_updates (row_data session) in
        (<[sessionId body :=
             withData
               {| sd_data := sd_data (row_data session); sd_users := users;
                  sd_updates := updates;
                  sd_lastUpdated := sd_lastUpdated (row_data session) |}
               session]> db,
         {| status := 200; success := true; error := None;
            res_sessionId := None; res_shareLink := None; res_data := None;
            res_userCount := Some (size (default ∅ users));
            res_updates :=
              Some (List.filter
                      (λ u, (su_timestamp u >? Js.num_or (lastUpdate body) 0)%Z)
                      (default [] updates));
            res_timestamp := Some now |})
    end.
Proof.
  intros Ha. unfold POST, dispatch, pollCase, findUnique. rewrite Ha. simpl.
  destruct (db !! sessionId body) as [session|] eqn:Hs; [|done].
  by rewrite (db_update_found _ _ _ _ Hs).
Qed.

(** *** Absent sessions *)

(** C8. For a request that names a [sessionId] with no stored session, the
    actions join, poll, update and get answer a structured failure
    ([success: false]) with status 404 and leave the store as it was; delete
    and leave answer success, whether or not the session (or, for leave,
    the participant) exists. *)
Theorem absent_session_contract (env : Env) (draw : nat → nat) (now : Z) :
  (∀ db (body : Body),
     db !! sessionId body = None →
     action body = "join" ∨ action body = "poll"
     ∨ action body = "update" ∨ action body = "get" →
     (POST env draw now db body).1 = db
     ∧ success (POST env draw now db body).2 = false
     ∧ status (POST env draw now db body).2 = 404
     ∧ is_Some (error (POST env draw now db body).2))
  ∧ (∀ db (body : Body),
       action body = "delete" ∨ action body = "leave" →
       success (POST env draw now db body).2 = true
       ∧ status (POST env draw now db body).2 = 200)
  ∧ (∀ db (body : Body),
       db !! sessionId body = None →
       action body = "delete" ∨ action body = "leave" →
       (POST env draw now db body).1 = db).
Proof.
  split; [|split].
  - intros db body Hnone [Ha|[Ha|[Ha|Ha]]];
      unfold POST, dispatch, joinCase, pollCase, updateCase, getCase, findUnique;
      rewrite Ha, Hnone; simpl; eauto.
  - intros db body [Ha|Ha]; unfold POST, dispatch; rewrite Ha; simpl; [done|].
    unfold leaveCase, findUnique.
    destruct (db !! sessionId body) as [session|] eqn:Hs; [|done].
    destruct (userId body) as [uid|]; [|done].
    destruct (Js.str_truthy uid); [|done].
    destruct (sd_users (row_data session)) as [users|]; [|done].
    destruct (users !! uid); [|done].
    by rewrite (db_update_found _ _ _ _ Hs).
  - intros db body Hnone [Ha|Ha]; unfold POST, dispatch; rewrite Ha; simpl.
    + unfold db_delete. by rewrite Hnone.
    + unfold leaveCase, findUnique. by rewrite Hnone.
Qed.

Lemma absent_session_contract_witness :
  let body := {| action := "join"; sessionId := "Zq3k9PaB"; userId := Some "u1";
                 data := None; type := None; field := None; value := None;
                 timestamp := None; lastUpdate := None; initialData := None |} in
  let env := {| NEXTAUTH_URL := None; VERCEL_URL := None |} in
  (∅ : DB) !! sessionId body = None
  ∧ success (POST env (λ _, 0%nat) 1000 ∅ body).2 = false
  ∧ status (POST env (λ _, 0%nat) 1000 ∅ body).2 = 404.
Proof.
  intros body env.
  assert ((∅ : DB) !! sessionId body = None) as H by reflexivity.
  split; [exact H|].
  destruct (proj1 (absent_session_contract env (λ _, 0%nat) 1000) ∅ body H
              (or_introl eq_refl)) as (_ & Hs & Hst & _).
  by split.
Defined.

(** *** Creating a session *)

(** C7 (as amended). A create request whose minted identifier is not in
    use answers success with a [sessionId] of exactly 8 alphanumeric
    characters, and stores a session with empty participants, an empty
    update log and [lastUpdated = now], expiring 24 hours later.  Its
    [data] is the request's [data] when that is supplied (truthy) and
    [null] otherwise, and that is what an immediate get returns: [null] for
    a create request without [data]. *)
Theorem create_then_get (env : Env) (draw : nat → nat) (now : Z) db
    (body : Body) :
  action body = "create" →
  (∀ i, draw i < 62)%nat →
  db !! generateId draw 8 = None →
  let sid := generateId draw 8 in
  let db' := (POST env draw now db body).1 in
  let r := (POST env draw now db body).2 in
  let seed := if opt_json_truthy (data body) then data body else Some JNull in
  success r = true ∧ status r = 200 ∧ res_sessionId r = Some sid
  ∧ String.length sid = 8%nat ∧ allAlnum sid = true
  ∧ (∃ row, db' !! sid = Some row
            ∧ sd_data (row_data row) = seed
            ∧ sd_users (row_data row) = Some ∅
            ∧ sd_updates (row_data row) = Some []
            ∧ sd_lastUpdated (row_data row) = Some now
            ∧ row_expiresAt row = now + 24 * 60 * 60 * 1000)
  ∧ (∀ (env' : Env) (draw' : nat → nat) (now' : Z) (get : Body),
       action get = "get" → sessionId get = sid →
       success (POST env' draw' now' db' get).2 = true
       ∧ res_data (POST env' draw' now' db' get).2 = seed)
  ∧ (data body = None → seed = Some JNull).
Proof.
  intros Ha Hdraw Hfresh sid db' r seed.
  destruct (generateId_shape draw 8 Hdraw) as [Hlen Hal].
  assert (∃ row, db' = <[sid := row]> db ∧ r.(success) = true
                 ∧ r.(status) = 200 ∧ r.(res_sessionId) = Some sid
                 ∧ sd_data (row_data row) = seed
                 ∧ sd_users (row_data row) = Some ∅
                 ∧ sd_updates (row_data row) = Some []
                 ∧ sd_lastUpdated (row_data row) = Some now
                 ∧ row_expiresAt row = now + 24 * 60 * 60 * 1000)
    as (row & Hdb & Hs & Hst & Hid & Hd & Hu & Hup & Hlu & Hex).
  { subst db' r. unfold POST, dispatch, createCase, db_create.
    rewrite Ha. simpl. rewrite Hfresh. simpl.
    eexists. repeat split.
    subst seed. simpl.
    destruct (data body) as [j|]; simpl; [by destruct (json_truthy j)|done]. }
  repeat split; try done.
  - exists row. by rewrite Hdb, lookup_insert_eq.
  - rewrite (POST_get _ _ _ _ _ H), H0, Hdb, lookup_insert_eq. done.
  - rewrite (POST_get _ _ _ _ _ H), H0, Hdb, lookup_insert_eq. done.
  - intros Hnone. subst seed. by rewrite Hnone.
Qed.

Lemma create_then_get_witness :
  let env := {| NEXTAUTH_URL := None; VERCEL_URL := None |} in
  let body := {| action := "create"; sessionId := ""; userId := None;
                 data := None; type := None; field := None; value := None;
                 timestamp := None; lastUpdate := None; initialData := None |} in
  let get := {| action := "get"; sessionId := "AAAAAAAA"; userId := None;
                data := None; type := None; field := None; value := None;
                timestamp := None; lastUpdate := None; initialData := None |} in
  res_sessionId (POST env (λ _, 0%nat) 1000 ∅ body).2 = Some "AAAAAAAA"
  ∧ res_data (POST env (λ _, 0%nat) 1001
                (POST env (λ _, 0%nat) 1000 ∅ body).1 get).2 = Some JNull.
Proof.
  intros env body get.
  assert (∀ i : nat, ((λ _ : nat, 0%nat) i < 62)%nat) as Hdraw
    by (intros i; simpl; lia).
  destruct (create_then_get env (λ _, 0%nat) 1000 ∅ body eq_refl Hdraw
              (lookup_empty _))
    as (_ & _ & Hid & _ & _ & _ & Hget & _).
  split; [exact Hid|].
  exact (proj2 (Hget env (λ _, 0%nat) 1001 get eq_refl eq_refl)).
Defined.

(** C7 as stated does not hold: a create request that carries [data]
    seeds the session with it, and the immediate get returns that payload,
    not [null]. *)
Lemma create_with_data_is_seeded :
  let env := {| NEXTAUTH_URL := None; VERCEL_URL := None |} in
  let seed := JObj [("conclusion", JStr "X")] in
  let body := {| action := "create"; sessionId := ""; userId := None;
                 data := Some seed; type := None; field := None; value := None;
                 timestamp := None; lastUpdate := None; initialData := None |} in
  let get := {| action := "get"; sessionId := "AAAAAAAA"; userId := None;
                data := None; type := None; field := None; value := None;
                timestamp := None; lastUpdate := None; initialData := None |} in
  res_sessionId (POST env (λ _, 0%nat) 1000 ∅ body).2 = Some "AAAAAAAA"
  ∧ res_data (POST env (λ _, 0%nat) 1000
                (POST env (λ _, 0%nat) 1000 ∅ body).1 get).2 = Some seed
  ∧ res_data (POST env (λ _, 0%nat) 1000
                (POST env (λ _, 0%nat) 1000 ∅ body).1 get).2 ≠ Some JNull.
Proof. by vm_compute. Qed.

(** *** Update events *)

Lemma num_or_zero (z : Z) : Js.num_or (Some z) 0 = z.
Proof.
  unfold Js.num_or, Js.num_truthy. by destruct (Z.eqb_spec z 0) as [->|].
Qed.

Lemma recent_true (now : Z) (u : SessionUpdate) :
  recent now u = true ↔ now - su_timestamp u < maxInactive.
Proof. unfold recent. apply Z.ltb_lt. Qed.

Lemma isField_true (body : Body) :
  isField body = true ↔ type body = Some "field".
Proof. unfold isField. apply bool_decide_eq_true. Qed.

Lemma filter_recent_snoc (now : Z) (l : list SessionUpdate) (u : SessionUpdate) :
  List.filter (recent now) (l ++ [u]) =
    (List.filter (recent now) l ++ (if recent now u then [u] else []))%list.
Proof. by rewrite List.filter_app. Qed.

(** C3 (as amended). For an existing session, an update request answers
    success; with type 'field' it leaves the canonical data as it was (a
    subsequent get returns the same data), with any other type it overwrites
    the canonical data with the request's payload.  The event is appended to
    the log and kept there provided its timestamp, which is the server's
    current time unless the request supplies one, is less than 5 minutes
    old; a subsequent poll made while the event is still less than 5
    minutes old, with a cursor below the event's timestamp, has the event
    in its update list. *)
Theorem update_event_contract (env : Env) (draw : nat → nat) (now : Z) db
    (body : Body) (session : SharedSession) :
  action body = "update" →
  db !! sessionId body = Some session →
  let db' := (POST env draw now db body).1 in
  let ev := updateEvent now body in
  success (POST env draw now db body).2 = true
  ∧ (type body = Some "field" →
       su_type ev = "field" ∧ su_field ev = field body
       ∧ su_value ev = value body)
  ∧ (timestamp body = None → su_timestamp ev = now)
  ∧ (∃ session',
       db' !! sessionId body = Some session'
       ∧ (type body = Some "field" →
            sd_data (row_data session') = sd_data (row_data session))
       ∧ (type body ≠ Some "field" →
            sd_data (row_data session') = data body)
       ∧ (now - su_timestamp ev < maxInactive →
            sd_updates (row_data session')
            = Some (List.filter (recent now)
                      (default [] (sd_updates (row_data session))) ++ [ev])%list))
  ∧ (∀ (env' : Env) (draw' : nat → nat) (now' : Z) (get : Body),
       action get = "get" → sessionId get = sessionId body →
       (type body = Some "field" →
          res_data (POST env' draw' now' db' get).2
          = sd_data (row_data session))
       ∧ (type body ≠ Some "field" →
          res_data (POST env' draw' now' db' get).2 = data body))
  ∧ (∀ (env' : Env) (draw' : nat → nat) (now' : Z) (poll : Body),
       action poll = "poll" → sessionId poll = sessionId body →
       now - su_timestamp ev < maxInactive →
       now' - su_timestamp ev < maxInactive →
       su_timestamp ev > Js.num_or (lastUpdate poll) 0 →
       ∃ us, res_updates (POST env' draw' now' db' poll).2 = Some us
             ∧ ev ∈ us).
Proof.
  intros Ha Hs db' ev. subst db' ev.
  rewrite (POST_update _ _ _ _ _ Ha), Hs. simpl.
  set (d' := {| sd_data := _ |}).
  assert (sd_data d' = if isField body then sd_data (row_data session)
                       else data body) as Hdata by done.
  assert (type body = Some "field" → sd_data d' = sd_data (row_data session))
    as Hfield.
  { intros Ht. apply isField_true in Ht. by rewrite Hdata, Ht. }
  assert (type body ≠ Some "field" → sd_data d' = data body) as Hfull.
  { intros Ht. rewrite Hdata. destruct (isField body) eqn:E; [|done].
    by apply isField_true in E. }
  split; [done|]. split; [|split; [|split; [|split]]].
  - intros Ht. unfold updateEvent. simpl.
    rewrite (proj2 (isField_true body) Ht), Ht. done.
  - intros Ht. unfold updateEvent. simpl. by rewrite Ht.
  - exists (withData d' session). rewrite lookup_insert_eq.
    split; [done|]. split; [done|]. split; [done|].
    intros Hfresh. simpl. rewrite filter_recent_snoc.
    by rewrite (proj2 (recent_true now (updateEvent now body)) Hfresh).
  - intros env' draw' now' get Hg Hsid.
    rewrite (POST_get _ _ _ _ _ Hg), Hsid, lookup_insert_eq. simpl.
    by split.
  - intros env' draw' now' poll Hp Hsid Hfresh Hfresh' Hcur.
    rewrite (POST_poll _ _ _ _ _ Hp), Hsid, lookup_insert_eq. simpl.
    eexists; split; [done|].
    apply list_elem_of_In, filter_In. split; [|by apply Z.gtb_gt].
    apply filter_In. split; [|by apply (recent_true now' (updateEvent now body))].
    apply filter_In. split; [|by apply (recent_true now (updateEvent now body))].
    apply in_or_app. right. by left.
Qed.

Lemma update_event_contract_witness :
  let env := {| NEXTAUTH_URL := None; VERCEL_URL := None |} in
  let row :=
    {| row_sessionId := "AAAAAAAA"; row_creatorId := "collaboration";
       row_creatorName := "Collaboration Session";
       row_reportType := "collaboration"; row_permission := "edit";
       row_data := {| sd_data := Some (JObj [("conclusion", JStr "done")]);
                      sd_users := Some ∅; sd_updates := Some [];
                      sd_lastUpdated := Some 1000 |};
       row_expiresAt := 86401000 |} in
  let db : DB := {["AAAAAAAA" := row]} in
  let upd := {| action := "update"; sessionId := "AAAAAAAA";
                userId := Some "u1"; data := None; type := Some "field";
                field := Some "inspection.tag"; value := Some (JStr "T-1");
                timestamp := None; lastUpdate := None; initialData := None |} in
  let get := {| action := "get"; sessionId := "AAAAAAAA"; userId := None;
                data := None; type := None; field := None; value := None;
                timestamp := None; lastUpdate := None; initialData := None |} in
  let poll := {| action := "poll"; sessionId := "AAAAAAAA"; userId := Some "u2";
                 data := None; type := None; field := None; value := None;
                 timestamp := None; lastUpdate := Some 1500;
                 initialData := None |} in
  let db' := (POST env (λ _, 0%nat) 2000 db upd).1 in
  res_data (POST env (λ _, 0%nat) 2500 db' get).2
  = Some (JObj [("conclusion", JStr "done")])
  ∧ ∃ us, res_updates (POST env (λ _, 0%nat) 3000 db' poll).2 = Some us
          ∧ updateEvent 2000 upd ∈ us.
Proof.
  intros env row db upd get poll db'.
  destruct (update_event_contract env (λ _, 0%nat) 2000 db upd row
              eq_refl (lookup_insert_eq _ _ _))
    as (_ & _ & _ & _ & Hget & Hpoll).
  split.
  - apply (proj1 (Hget env (λ _, 0%nat) 2500 get eq_refl eq_refl)).
    reflexivity.
  - apply (Hpoll env (λ _, 0%nat) 3000 poll eq_refl eq_refl); by vm_compute.
Defined.

(** C3 as stated does not hold: a field update whose timestamp is more
    than 5 minutes behind the server clock is trimmed from the log by the
    update itself, so the log does not hold it and no subsequent poll,
    whatever its time and cursor, surfaces it. *)
Lemma stale_field_update_never_surfaces :
  let env := {| NEXTAUTH_URL := None; VERCEL_URL := None |} in
  let row :=
    {| row_sessionId := "AAAAAAAA"; row_creatorId := "collaboration";
       row_creatorName := "Collaboration Session";
       row_reportType := "collaboration"; row_permission := "edit";
       row_data := {| sd_data := Some JNull; sd_users := Some ∅;
                      sd_updates := Some []; sd_lastUpdated := Some 1000 |};
       row_expiresAt := 86401000 |} in
  let db : DB := {["AAAAAAAA" := row]} in
  let upd := {| action := "update"; sessionId := "AAAAAAAA";
                userId := Some "u1"; data := None; type := Some "field";
                field := Some "inspection.tag"; value := Some (JStr "T-1");
                timestamp := Some 1000; lastUpdate := None;
                initialData := None |} in
  let now := 1000000 in
  let db' := (POST env (λ _, 0%nat) now db upd).1 in
  success (POST env (λ _, 0%nat) now db upd).2 = true
  ∧ (sd_updates ∘ row_data <$> db' !! "AAAAAAAA") = Some (Some [])
  ∧ ∀ (now' : Z) (cursor : option Z),
      res_updates
        (POST env (λ _, 0%nat) now' db'
           {| action := "poll"; sessionId := "AAAAAAAA"; userId := Some "u2";
              data := None; type := None; field := None; value := None;
              timestamp := None; lastUpdate := cursor;
              initialData := None |}).2
      = Some [].
Proof.
  split; [by vm_compute|]. split; [by vm_compute|].
  intros now' cursor. by vm_compute.
Qed.

(** *** Polling *)

Lemma touch_lookup (now : Z) (o : option string) (us : gmap string User) :
  ∃ t, touch now o (Some us) = Some t
       ∧ ∀ id, t !! id = if bool_decide (o = Some id ∧ id ≠ "")
                         then refresh now <$> us !! id else us !! id.
Proof.
  unfold touch. destruct o as [uid|].
  2:{ exists us. split; [done|]. intros id.
      rewrite bool_decide_eq_false_2; [done|]. by intros [? _]. }
  destruct (Js.str_truthy uid) eqn:Ht.
  2:{ exists us. split; [done|]. intros id.
      rewrite bool_decide_eq_false_2; [done|].
      intros [[= ->] Hne]. by apply str_truthy_false in Ht. }
  apply str_truthy_true in Ht.
  destruct (us !! uid) as [u|] eqn:Hu.
  - eexists; split; [done|]. intros id.
    destruct (decide (uid = id)) as [->|Hne].
    + rewrite lookup_insert_eq, bool_decide_eq_true_2, Hu; done.
    + rewrite lookup_insert_ne by done.
      rewrite bool_decide_eq_false_2; [done|]. intros [[= ?] _]. done.
  - exists us. split; [done|]. intros id.
    case_bool_decide as Hc; [|done].
    destruct Hc as [[= ->] _]. by rewrite Hu.
Qed.

Lemma pruneUsers_lookup (now : Z) (us : gmap string User) (id : string) (u : User) :
  pruneUsers now us !! id = Some u
  ↔ us !! id = Some u ∧ ¬ (now - u_lastSeen u > maxInactive).
Proof. unfold pruneUsers. by rewrite map_lookup_filter_Some. Qed.

(** C4 (as amended). For an existing session, poll refreshes the caller's
    [lastSeen] and then removes every participant whose [lastSeen] is more
    than 5 minutes before the current time, so that none such remains and
    no other participant is removed; it removes every update-log entry
    whose timestamp is more than 5 minutes old, and returns exactly the
    remaining entries whose timestamp is strictly greater than the
    [lastUpdate] cursor.  With a single logged update, a poll whose cursor
    equals its timestamp returns no update, and a poll whose cursor is one
    less returns exactly that update provided the update is less than 5
    minutes old at the time of the poll. *)
Theorem poll_contract (env : Env) (draw : nat → nat) (now : Z) db
    (body : Body) (session : SharedSession) :
  action body = "poll" →
  db !! sessionId body = Some session →
  let db' := (POST env draw now db body).1 in
  let r := (POST env draw now db body).2 in
  let cursor := Js.num_or (lastUpdate body) 0 in
  let old := default [] (sd_updates (row_data session)) in
  success r = true
  ∧ ∃ session',
      db' !! sessionId body = Some session'
      ∧ (∀ us, sd_users (row_data session) = Some us →
           ∃ us', sd_users (row_data session') = Some us'
             ∧ res_userCount r = Some (size us')
             ∧ (∀ id u', us' !! id = Some u' →
                  ¬ (now - u_lastSeen u' > maxInactive))
             ∧ (∀ id u, us !! id = Some u →
                  now - u_lastSeen u > maxInactive →
                  userId body ≠ Some id → us' !! id = None)
             ∧ (∀ id u, us !! id = Some u →
                  ¬ (now - u_lastSeen u > maxInactive) → is_Some (us' !! id))
             ∧ (∀ id u, us !! id = Some u → userId body = Some id → id ≠ "" →
                  us' !! id = Some (refresh now u)))
      ∧ (let remaining := default [] (sd_updates (row_data session')) in
         remaining = List.filter (recent now) old
         ∧ (∀ u, u ∈ old → now - su_timestamp u > maxInactive → u ∉ remaining)
         ∧ res_updates r
           = Some (List.filter (λ u, (su_timestamp u >? cursor)%Z) remaining)
         ∧ (∀ u, u ∈ default [] (res_updates r)
                 ↔ u ∈ remaining ∧ su_timestamp u > cursor))
      ∧ (∀ u, sd_updates (row_data session) = Some [u] →
           (lastUpdate body = Some (su_timestamp u) → res_updates r = Some [])
           ∧ (lastUpdate body = Some (su_timestamp u - 1) →
              now - su_timestamp u < maxInactive →
              res_updates r = Some [u])).
Proof.
  intros Ha Hs db' r cursor old. subst db' r.
  rewrite (POST_poll _ _ _ _ _ Ha), Hs. cbn zeta.
  set (users := pruneUsers now <$> _).
  set (updates := List.filter (recent now) <$> _).
  assert (default [] updates = List.filter (recent now) old) as Hrem.
  { subst updates old. by destruct (sd_updates (row_data session)). }
  cbn [fst snd success res_updates res_userCount].
  split; [done|].
  eexists. rewrite lookup_insert_eq. split; [done|].
  cbn [withData row_data sd_users sd_updates].
  split; [|split].
  - intros us Hus. subst users. rewrite Hus.
    destruct (touch_lookup now (userId body) us) as (t & -> & Ht).
    exists (pruneUsers now t). split; [done|]. split; [done|].
    split; [|split; [|split]].
    + intros id u' Hu'. by apply pruneUsers_lookup in Hu' as [_ ?].
    + intros id u Hu Hstale Hne.
      destruct (pruneUsers now t !! id) as [u'|] eqn:Hu'; [|done].
      apply pruneUsers_lookup in Hu' as [Hu' Hfresh].
      rewrite Ht, bool_decide_eq_false_2 in Hu' by (by intros [? _]).
      by simplify_eq.
    + intros id u Hu Hfresh. specialize (Ht id). rewrite Hu in Ht.
      case_bool_decide.
      * exists (refresh now u). apply pruneUsers_lookup. split; [done|].
        simpl. unfold maxInactive. lia.
      * exists u. by apply pruneUsers_lookup.
    + intros id u Hu Hid Hne. apply pruneUsers_lookup.
      rewrite Ht, bool_decide_eq_true_2, Hu by done. split; [done|].
      simpl. unfold maxInactive. lia.
  - rewrite Hrem. split; [done|]. split; [|split; [done|]].
    + intros u _ Hstale [_ Hrec%recent_true]%list_elem_of_In%filter_In. lia.
    + intros u. simpl. rewrite !list_elem_of_In, filter_In, Z.gtb_gt. done.
  - intros u Hu. rewrite Hrem. subst old. rewrite Hu. simpl.
    split.
    + intros Hl. subst cursor. rewrite Hl, num_or_zero.
      destruct (recent now u); simpl; [|done].
      by rewrite Z.gtb_ltb, Z.ltb_irrefl.
    + intros Hl Hfresh. subst cursor. rewrite Hl, num_or_zero.
      rewrite (proj2 (recent_true now u) Hfresh). simpl.
      by rewrite (proj2 (Z.gtb_gt _ _)) by lia.
Qed.

Lemma poll_contract_witness :
  let env := {| NEXTAUTH_URL := None; VERCEL_URL := None |} in
  let u := {| su_userId := Some "u1"; su_type := "field"; su_data := None;
              su_field := Some "inspection.tag"; su_value := Some (JStr "T-1");
              su_timestamp := 1000000 |} in
  let row :=
    {| row_sessionId := "AAAAAAAA"; row_creatorId := "collaboration";
       row_creatorName := "Collaboration Session";
       row_reportType := "collaboration"; row_permission := "edit";
       row_data :=
         {| sd_data := Some JNull;
            sd_users :=
              Some {["u1" := {| u_id := Some "u1"; u_joinedAt := 1000;
                                u_lastSeen := 1000 |}]};
            sd_updates := Some [u]; sd_lastUpdated := Some 1000 |};
       row_expiresAt := 86401000 |} in
  let db : DB := {["AAAAAAAA" := row]} in
  let poll := {| action := "poll"; sessionId := "AAAAAAAA"; userId := Some "u2";
                 data := None; type := None; field := None; value := None;
                 timestamp := None; lastUpdate := Some 999999;
                 initialData := None |} in
  1000100 - su_timestamp u < maxInactive
  ∧ res_updates (POST env (λ _, 0%nat) 1000100 db poll).2 = Some [u].
Proof.
  intros env u row db poll.
  assert (1000100 - su_timestamp u < maxInactive) as Hfresh by (by vm_compute).
  split; [exact Hfresh|].
  destruct (poll_contract env (λ _, 0%nat) 1000100 db poll row
              eq_refl (lookup_insert_eq _ _ _))
    as (_ & session' & _ & _ & _ & Hone).
  exact (proj2 (Hone u eq_refl) eq_refl Hfresh).
Defined.

(** C4 as stated does not hold: when the only logged update is more than
    5 minutes old at the time of the poll it is pruned before the cursor is
    applied, and a poll whose cursor is one less than its timestamp returns
    no update. *)
Lemma poll_stale_single_update_not_returned :
  let env := {| NEXTAUTH_URL := None; VERCEL_URL := None |} in
  let u := {| su_userId := Some "u1"; su_type := "field"; su_data := None;
              su_field := Some "inspection.tag"; su_value := Some (JStr "T-1");
              su_timestamp := 1000000 |} in
  let row :=
    {| row_sessionId := "AAAAAAAA"; row_creatorId := "collaboration";
       row_creatorName := "Collaboration Session";
       row_reportType := "collaboration"; row_permission := "edit";
       row_data := {| sd_data := Some JNull; sd_users := Some ∅;
                      sd_updates := Some [u]; sd_lastUpdated := Some 1000000 |};
       row_expiresAt := 87400000 |} in
  let db : DB := {["AAAAAAAA" := row]} in
  let poll := {| action := "poll"; sessionId := "AAAAAAAA"; userId := Some "u2";
                 data := None; type := None; field := None; value := None;
                 timestamp := None; lastUpdate := Some (su_timestamp u - 1);
                 initialData := None |} in
  sd_updates (row_data row) = Some [u]
  ∧ res_updates (POST env (λ _, 0%nat) 1400000 db poll).2 = Some []
  ∧ res_updates (POST env (λ _, 0%nat) 1400000 db poll).2 ≠ Some [u].
Proof. by vm_compute. Qed.

End CollabFacts.

(** * Further properties of the stores and of the handler *)

(** ** Algebra of the photo-sequence merge *)

Section MergeAlgebra.

Implicit Types a b c : list Photo.t.

Lemma str_or_assoc (x y z : string) :
  Js.str_or z (Js.str_or y x) = Js.str_or (Js.str_or z y) x.
Proof.
  rewrite !str_or_decide. repeat case_decide; by subst.
Qed.

Lemma str_or_fallback_assoc (x y z : string) :
  Js.str_or (Js.str_or z (Js.str_or (Js.str_or y x) "")) ""
  = Js.str_or (Js.str_or (Js.str_or (Js.str_or z y) "") x) "".
Proof.
  rewrite !str_or_fallback. repeat case_decide; by subst.
Qed.

Lemma opt_or_assoc (x y z : option string) :
  Js.opt_or z (Js.opt_or y x) = Js.opt_or (Js.opt_or z y) x.
Proof.
  unfold Js.opt_or.
  destruct (Js.opt_truthy z) eqn:Hz; [by rewrite Hz|].
  by destruct (Js.opt_truthy y) eqn:Hy; rewrite ?Hy, ?Hz.
Qed.

Lemma mergePhoto_assoc (p q r : Photo.t) :
  Merge.mergePhoto (Merge.mergePhoto p q) r
  = Merge.mergePhoto p (Merge.mergePhoto q r).
Proof.
  unfold Merge.mergePhoto. simpl.
  rewrite !str_or_fallback_assoc, str_or_assoc, !opt_or_assoc, orb_assoc.
  f_equal.
  by destruct (Photo.embeddedPhotos r), (Photo.embeddedPhotos q).
Qed.

Lemma pairwise_assoc a b c :
  Merge.pairwise (Merge.pairwise a b) c = Merge.pairwise a (Merge.pairwise b c).
Proof.
  revert b c. induction a as [|p a IH]; intros b c; [done|].
  destruct b as [|q b]; [done|].
  destruct c as [|r c]; [done|].
  simpl. by rewrite mergePhoto_assoc, IH.
Qed.

Lemma mergePhotos_absorb a b :
  Merge.mergePhotos (Merge.mergePhotos a b) b = Merge.mergePhotos a b.
Proof.
  rewrite !mergePhotos_pairwise, pairwise_assoc.
  by rewrite <- (mergePhotos_pairwise b b), mergePhotos_same.
Qed.

(** X1. [mergePhotos] is associative and has the empty list as neutral
    element on both sides, and merging a list with itself gives it back;
    hence merging the same incoming list a second time changes nothing. *)
Theorem mergePhotos_monoid :
  (∀ a b c, Merge.mergePhotos (Merge.mergePhotos a b) c
            = Merge.mergePhotos a (Merge.mergePhotos b c))
  ∧ (∀ a, Merge.mergePhotos a [] = a ∧ Merge.mergePhotos [] a = a)
  ∧ (∀ a b, Merge.mergePhotos (Merge.mergePhotos a b) b = Merge.mergePhotos a b).
Proof.
  split; [|split].
  - intros a b c. rewrite !mergePhotos_pairwise. apply pairwise_assoc.
  - intros a. rewrite !mergePhotos_pairwise. by rewrite pairwise_nil_r.
  - apply mergePhotos_absorb.
Qed.

End MergeAlgebra.

(** ** The flat store *)

Section FlatStoreFacts.

Import ReportStore.

Lemma createInitialPhotos_length (count : Z) :
  length (createInitialPhotos count) = Z.to_nat count.
Proof. unfold createInitialPhotos. by rewrite length_map, length_seq. Qed.

Lemma createInitialPhotos_lookup (count : Z) (i : nat) :
  (i < Z.to_nat count)%nat →
  createInitialPhotos count !! i = Some (Photo.blank ("photo-init-" +:+ pretty i)).
Proof.
  intros Hi. unfold createInitialPhotos.
  rewrite list_lookup_fmap, lookup_seq_lt by done. done.
Qed.

Lemma preserve_loop (cur new : list Photo.t) (m : nat) :
  (m ≤ length cur)%nat → (m ≤ length new)%nat →
  foldl (λ acc i, match cur !! i with
                  | Some p => <[i:=p]> acc
                  | None => acc
                  end) new (seq 0 m)
  = (take m cur ++ drop m new)%list.
Proof.
  induction m as [|m IH]; intros Hc Hn; [by rewrite take_0, drop_0|].
  rewrite seq_S, foldl_app, IH by lia. simpl.
  destruct (lookup_lt_is_Some_2 cur m ltac:(lia)) as [p Hp]. rewrite Hp.
  rewrite (take_S_r _ _ _ Hp).
  assert (length (take m cur) = m) as Hlen by (rewrite length_take; lia).
  rewrite insert_app_r_alt by lia. rewrite Hlen, Nat.sub_diag.
  destruct (lookup_lt_is_Some_2 new m ltac:(lia)) as [q Hq].
  rewrite (drop_S _ _ _ Hq). simpl. by rewrite <- app_assoc.
Qed.

Lemma setPhotoCount_shape (now count : Z) (st : State) :
  let st' := setPhotoCount now count st in
  length (photos st') = Z.to_nat count
  ∧ photoCount st' = count
  ∧ ∀ i : nat, (i < Z.to_nat count)%nat →
      photos st' !! i =
        if decide (i < length (photos st))%nat then photos st !! i
        else Some (Photo.blank ("photo-init-" +:+ pretty i)).
Proof.
  simpl. unfold preservePhotos.
  set (m := Z.to_nat (Z.min (Z.of_nat (length (photos st))) count)).
  assert (m ≤ length (photos st))%nat as Hc by (subst m; lia).
  assert (m ≤ length (createInitialPhotos count))%nat as Hn.
  { rewrite createInitialPhotos_length. subst m. lia. }
  rewrite (preserve_loop _ _ m Hc Hn).
  split; [|split; [done|]].
  - rewrite length_app, length_take, length_drop, createInitialPhotos_length.
    subst m. lia.
  - intros i Hi. case_decide as Hlt.
    + rewrite lookup_app_l by (rewrite length_take; subst m; lia).
      apply lookup_take_lt. subst m. lia.
    + assert (m = length (photos st)) as Hm by (subst m; lia).
      rewrite lookup_app_r by (rewrite length_take; lia).
      rewrite length_take, lookup_drop.
      replace (m + (i - _))%nat with i by lia.
      by apply createInitialPhotos_lookup.
Qed.

(** X2. For a count below [2^32] (from there on the array cannot be
    built and the call throws), [setPhotoCount(count)] leaves exactly
    [count] photos (none for a negative count): the existing photos below
    [count] keep their place and every further slot holds the blank photo
    [photo-init-i] of its index; [photoCount] becomes [count] as given. *)
Theorem setPhotoCount_photos (now count : Z) (st : State) :
  count < 2 ^ 32 →
  let st' := setPhotoCount now count st in
  length (photos st') = Z.to_nat count
  ∧ photoCount st' = count
  ∧ ∀ i : nat, (i < Z.to_nat count)%nat →
      photos st' !! i =
        if decide (i < length (photos st))%nat then photos st !! i
        else Some (Photo.blank ("photo-init-" +:+ pretty i)).
Proof. intros _. apply setPhotoCount_shape. Qed.

Lemma setPhotoCount_photos_witness :
  photos (setPhotoCount 1700 5 initialState) !! 4%nat
  = Some (Photo.blank ("photo-init-" +:+ pretty 4%nat)).
Proof.
  apply (proj2 (proj2 (setPhotoCount_photos 1700 5 initialState ltac:(lia)))
           4%nat).
  by vm_compute.
Defined.

(** X3. The store keeps [photoCount] equal to the number of photos through
    [addPhoto], [updatePhoto] and, for a count that is not negative,
    [setPhotoCount]; [removePhoto] keeps it exactly when one photo carries
    the given id, because it always subtracts one from [photoCount] while
    it removes every photo with that id (none for an unknown id). *)
Theorem photoCount_tracks_photos (now : Z) (st : State) :
  photoCount st = Z.of_nat (length (photos st)) →
  photoCount (addPhoto now st) = Z.of_nat (length (photos (addPhoto now st)))
  ∧ (∀ id data,
       photoCount (updatePhoto now id data st)
       = Z.of_nat (length (photos (updatePhoto now id data st))))
  ∧ (∀ count : Z, (0 ≤ count)%Z →
       photoCount (setPhotoCount now count st)
       = Z.of_nat (length (photos (setPhotoCount now count st))))
  ∧ (∀ id,
       photoCount (removePhoto now id st)
       = Z.of_nat (length (photos (removePhoto now id st)))
       ↔ length (List.filter (λ p, String.eqb (Photo.id p) id) (photos st)) = 1%nat).
Proof.
  intros Hinv. split; [|split; [|split]].
  - simpl. rewrite length_app. simpl. lia.
  - intros id data. simpl. by rewrite length_map.
  - intros count Hc.
    destruct (setPhotoCount_shape now count st) as (Hlen & Hcount & _).
    rewrite Hlen, Hcount. lia.
  - intros id. simpl. rewrite Hinv.
    pose proof (List.filter_length (λ p, String.eqb (Photo.id p) id) (photos st))
      as Hsplit.
    lia.
Qed.

Lemma photoCount_tracks_photos_witness :
  photoCount (addPhoto 1700 initialState)
  = Z.of_nat (length (photos (addPhoto 1700 initialState))).
Proof.
  exact (proj1 (photoCount_tracks_photos 1700 initialState eq_refl)).
Defined.

Lemma flat_fold_flag (local server : gmap string Js.FieldVal) :
  (map_fold mergeField (local, false) server).2 = false →
  (map_fold mergeField (local, false) server).1 = local.
Proof.
  apply (map_fold_weak_ind (λ r m, r.2 = false → r.1 = local)); [done|].
  intros i x m r _ IH. unfold mergeField.
  destruct (Js.has_value x); [|done]. by destruct (negb _).
Qed.

Lemma trimEnd_empty (s : string) : String.eqb (Js.trimEnd s) "" = Js.allSpace s.
Proof.
  destruct s as [|c r]; [done|].
  change (Js.trimEnd (String c r))
    with (if Js.allSpace (String c r) then "" else String c (Js.trimEnd r)).
  by destruct (Js.allSpace (String c r)).
Qed.

Lemma allSpace_trimStart_upto (n : nat) (s : string) :
  (String.length s ≤ n)%nat → Js.allSpace (Js.trimStart s) = Js.allSpace s.
Proof.
  revert s. induction n as [|n IH]; intros s Hn.
  { destruct s; [done|]. simpl in Hn. lia. }
  destruct s as [|c1 r1]; [done|]. simpl in Hn. simpl.
  destruct (Js.is_space c1) eqn:H1; [apply IH; lia|].
  destruct r1 as [|c2 r2]; [simpl; by rewrite H1|]. simpl in Hn.
  destruct (Js.is_space2 c1 c2) eqn:H2; [apply IH; lia|].
  destruct r2 as [|c3 r3]; [simpl; by rewrite H1, H2|]. simpl in Hn.
  destruct (Js.is_space3 c1 c2 c3) eqn:H3; [apply IH; lia|].
  simpl. by rewrite H1, H2, H3.
Qed.

Lemma allSpace_trimStart (s : string) : Js.allSpace (Js.trimStart s) = Js.allSpace s.
Proof. by apply (allSpace_trimStart_upto (String.length s)). Qed.

Lemma trim_empty (s : string) : String.eqb (Js.trim s) "" = Js.allSpace s.
Proof. unfold Js.trim. by rewrite trimEnd_empty, allSpace_trimStart. Qed.

(** [trim] on white space of more than one byte: U+3000, then [a b], then
    U+00A0 and a line feed. *)
Example trim_wide_space :
  let b (z : Z) := String (Ascii.ascii_of_nat (Z.to_nat z)) EmptyString in
  Js.trim (b 227 +:+ b 128 +:+ b 128 +:+ "a b" +:+ b 194 +:+ b 160 +:+ b 10)
  = "a b"
  ∧ Js.allSpace (b 227 +:+ b 128 +:+ b 128 +:+ b 194 +:+ b 160) = true
  ∧ Js.allSpace (b 160) = false.
Proof. by vm_compute. Qed.

Lemma allSpace_falsy (s : string) : Js.str_truthy s = false → Js.allSpace s = true.
Proof. intros H. by apply str_truthy_false in H as ->. Qed.

Lemma flat_conclusion_rule (data : Data) (ts : option Z) (st : State) :
  conclusion (mergeFromData data ts st) =
    match data_conclusion data with
    | Some c => if Js.allSpace c then conclusion st else c
    | None => conclusion st
    end.
Proof.
  unfold mergeFromData, mergeResult. simpl.
  destruct (data_conclusion data) as [c|]; [|done].
  rewrite trim_empty.
  destruct (Js.str_truthy c) eqn:Ht; simpl.
  - destruct (Js.allSpace c); simpl; [done|].
    destruct (String.eqb_spec (conclusion st) c); simpl; congruence.
  - by rewrite (allSpace_falsy c Ht).
Qed.

(** X4. The conclusion after the flat store's merge: a server conclusion
    that is absent, empty or made only of the white space [trim] strips
    (of one byte or more, [Js.allSpace]) leaves the local conclusion as it
    is; any other server conclusion replaces it. *)
Theorem flat_merge_conclusion (data : Data) (ts : option Z) (st : State) :
  conclusion (mergeFromData data ts st) =
    match data_conclusion data with
    | Some c => if Js.allSpace c then conclusion st else c
    | None => conclusion st
    end.
Proof. apply flat_conclusion_rule. Qed.

(** X5. The change flag of the flat store's merge is sound: whenever
    [hasChanges] is false the merge has left the whole state as it was. *)
Theorem flat_merge_flag_sound (data : Data) (ts : option Z) (st : State) :
  hasChanges (mergeResult data ts st) = false →
  mergeFromData data ts st = st.
Proof.
  unfold mergeFromData, mergeResult. simpl.
  destruct (data_photos data) as [ps|]; simpl.
  { destruct (data_conclusion data) as [c|]; simpl; [|done].
    destruct (_ && _); [|done]. by destruct (negb _). }
  destruct (data_conclusion data) as [c|]; simpl.
  - destruct (_ && _); simpl.
    + destruct (negb _); simpl; [done|].
      destruct (data_inspection data) as [i|]; simpl;
        intros H; rewrite ?(flat_fold_flag _ _ H); by destruct st.
    + destruct (data_inspection data) as [i|]; simpl;
        intros H; rewrite ?(flat_fold_flag _ _ H); by destruct st.
  - destruct (data_inspection data) as [i|]; simpl;
      intros H; rewrite ?(flat_fold_flag _ _ H); by destruct st.
Qed.

Lemma flat_merge_flag_sound_witness :
  let data := {| data_inspection := Some {["tag" := Js.FStr ""]};
                 data_photos := None; data_conclusion := Some "  " |} in
  mergeFromData data None initialState = initialState.
Proof.
  intros data. apply (flat_merge_flag_sound data None initialState).
  by vm_compute.
Defined.

(** X6. The flat store's merge is idempotent: applying the same server
    payload a second time, under any timestamps, changes nothing more. *)
Theorem flat_merge_idempotent (data : Data) (ts ts' : option Z) (st : State) :
  mergeFromData data ts (mergeFromData data ts' st) = mergeFromData data ts' st.
Proof.
  set (st1 := mergeFromData data ts' st).
  assert (inspection (mergeFromData data ts st1) = inspection st1) as Hi.
  { unfold mergeFromData at 1, mergeResult. simpl.
    destruct (data_inspection data) as [i|] eqn:Hd; [|done].
    rewrite flat_fold_unchanged; [done|].
    intros k v Hk Hv. subst st1. unfold mergeFromData, mergeResult. simpl.
    rewrite ?Hd, flat_fold_lookup, Hk, Hv. done. }
  assert (photos (mergeFromData data ts st1) = photos st1) as Hp.
  { unfold mergeFromData at 1, mergeResult. simpl.
    destruct (data_photos data) as [ps|] eqn:Hd; simpl; [|done].
    subst st1. unfold mergeFromData, mergeResult. simpl. rewrite ?Hd. simpl.
    apply mergePhotos_absorb. }
  assert (conclusion (mergeFromData data ts st1) = conclusion st1) as Hc.
  { rewrite flat_conclusion_rule. subst st1. rewrite flat_conclusion_rule.
    destruct (data_conclusion data) as [c|]; [|done].
    by destruct (Js.allSpace c). }
  revert Hi Hp Hc. generalize st1. intros s.
  unfold mergeFromData, setAggregate. simpl. intros -> -> ->. by destruct s.
Qed.

Lemma spread_covered (base over : gmap string Js.FieldVal) :
  dom base ⊆ dom over → Js.spread base over = over.
Proof.
  intros Hdom. unfold Js.spread. apply map_eq. intros k.
  rewrite lookup_union.
  destruct (over !! k) as [v|] eqn:Ho; [by destruct (base !! k)|].
  destruct (base !! k) as [w|] eqn:Hb; [|done].
  assert (k ∈ dom over) as Hin by (apply Hdom, elem_of_dom; eauto).
  apply elem_of_dom in Hin as [? ?]. congruence.
Qed.

(** X7. Sharing round trip of the flat store: when the inspection of a
    state has every field of the default inspection, loading its
    [getAllData] into any state reproduces its inspection, photos and
    conclusion exactly, and loading it into the state itself changes
    nothing. *)
Theorem flat_load_getAllData (st other : State) :
  dom initialInspection ⊆ dom (inspection st) →
  getAllData (loadFromData (getAllData st) other) = getAllData st
  ∧ loadFromData (getAllData st) st = st.
Proof.
  intros Hdom. unfold loadFromData, getAllData, setAggregate. simpl.
  rewrite (spread_covered _ _ Hdom), str_or_decide.
  assert ((if decide (conclusion st = "") then "" else conclusion st)
          = conclusion st) as -> by (by case_decide).
  split; [done | by destruct st].
Qed.

Lemma flat_load_getAllData_witness :
  let st := setConclusion 1700 "done" initialState in
  getAllData (loadFromData (getAllData st) initialState) = getAllData st.
Proof.
  intros st.
  apply (flat_load_getAllData st initialState). by vm_compute.
Defined.

Lemma filter_all_kept {A} (f : A → bool) (l : list A) :
  (∀ x, x ∈ l → f x = true) → List.filter f l = l.
Proof.
  induction l as [|x l IH]; intros H; [done|]. simpl.
  rewrite (H x) by constructor. f_equal. apply IH.
  intros y Hy. apply H. by constructor.
Qed.

(** X8. [addPhoto] followed by [removePhoto] of the id it has minted,
    [photo-<now>], restores the photos and [photoCount], provided no photo
    already carries that id; a photo that does carry it is removed as
    well. *)
Theorem flat_addPhoto_removePhoto (now now' : Z) (st : State) :
  let minted := "photo-" +:+ pretty now in
  (∀ p, p ∈ photos st → Photo.id p ≠ minted) →
  photos (removePhoto now' minted (addPhoto now st)) = photos st
  ∧ photoCount (removePhoto now' minted (addPhoto now st)) = photoCount st.
Proof.
  intros minted Hfresh. simpl. split; [|lia].
  rewrite List.filter_app. simpl. fold minted.
  rewrite String.eqb_refl. simpl. rewrite app_nil_r.
  apply filter_all_kept. intros p Hp.
  apply negb_true_iff, String.eqb_neq. by apply Hfresh.
Qed.

Lemma flat_addPhoto_removePhoto_witness :
  photos (removePhoto 1800 ("photo-" +:+ pretty 1700)
            (addPhoto 1700 initialState))
  = photos initialState.
Proof.
  apply (flat_addPhoto_removePhoto 1700 1800 initialState).
  intros p Hp. simpl in Hp.
  repeat (apply elem_of_cons in Hp as [->|Hp]; [by vm_compute|]).
  by apply elem_of_nil in Hp.
Defined.

End FlatStoreFacts.

(** ** The category-aware store *)

Section HomeStoreFacts.

Import HomeReportStore.

Implicit Types l s : list PhotoCategory.

Lemma mergeCategory_id l (x : PhotoCategory) : id (mergeCategory l x) = id x.
Proof. unfold mergeCategory. by destruct (List.find _ l). Qed.

Lemma find_none_id l (x : PhotoCategory) :
  (∀ c, c ∈ l → id c ≠ id x) →
  List.find (λ c, String.eqb (id c) (id x)) l = None.
Proof.
  induction l as [|c l IH]; intros H; [done|]. simpl.
  destruct (String.eqb_spec (id c) (id x)) as [E|_].
  - exfalso. by apply (H c); [constructor|].
  - apply IH. intros c' Hc'. apply H. by constructor.
Qed.

Lemma find_first_id l1 l2 (c x : PhotoCategory) :
  id c = id x → (∀ c', c' ∈ l1 → id c' ≠ id x) →
  List.find (λ c, String.eqb (id c) (id x)) (l1 ++ c :: l2) = Some c.
Proof.
  intros Hc. induction l1 as [|c' l1 IH]; intros H; simpl.
  - by rewrite Hc, String.eqb_refl.
  - destruct (String.eqb_spec (id c') (id x)) as [E|_].
    + exfalso. by apply (H c'); [constructor|].
    + apply IH. intros d Hd. apply H. by constructor.
Qed.

(** X9. The category merge is driven by the server's list.  An empty list
    on either side returns the other side.  Otherwise the result has the
    server's categories in the server's order, so a category that only
    the local side has is dropped; a server category without a local
    category of its id is adopted as it is, and one with a local category
    of its id (the first such) keeps the server's properties, merges the
    photos positionally and takes the server's additional parts unless
    they are empty. *)
Theorem mergeCategories_server_driven :
  (∀ l, mergeCategories l [] = l)
  ∧ (∀ s, mergeCategories [] s = s)
  ∧ (∀ l s, l ≠ [] → s ≠ [] →
       map id (mergeCategories l s) = map id s
       ∧ (∀ c, c ∈ l → id c ∉ map id s →
            ∀ r, r ∈ mergeCategories l s → id r ≠ id c)
       ∧ (∀ (i : nat) x, s !! i = Some x →
            (∀ c, c ∈ l → id c ≠ id x) →
            mergeCategories l s !! i = Some x)
       ∧ (∀ (i : nat) x l1 c l2, s !! i = Some x →
            l = (l1 ++ c :: l2)%list → id c = id x →
            (∀ c', c' ∈ l1 → id c' ≠ id x) →
            ∃ r, mergeCategories l s !! i = Some r
                 ∧ id r = id x ∧ props r = props x
                 ∧ photos r = Merge.mergePhotos (photos c) (photos x)
                 ∧ additionalParts r
                   = if decide (additionalParts x = []) then additionalParts c
                     else additionalParts x)).
Proof.
  split; [|split].
  - intros l. unfold mergeCategories. done.
  - intros s. unfold mergeCategories. by destruct s.
  - intros l s Hl Hs.
    assert (mergeCategories l s = map (mergeCategory l) s) as ->.
    { unfold mergeCategories. by destruct s, l. }
    assert (map id (map (mergeCategory l) s) = map id s) as Hids.
    { rewrite map_map. apply map_ext. intros x. apply mergeCategory_id. }
    split; [done|]. split; [|split].
    + intros c Hc Hnot r Hr E. apply Hnot. rewrite <- E, <- Hids.
      apply list_elem_of_fmap. by exists r.
    + intros i x Hx Hnone. rewrite list_lookup_fmap, Hx. simpl.
      unfold mergeCategory. by rewrite find_none_id.
    + intros i x l1 c l2 Hx -> Hc Hfirst.
      rewrite list_lookup_fmap, Hx. simpl. eexists; split; [done|].
      unfold mergeCategory. rewrite (find_first_id _ _ _ _ Hc Hfirst). simpl.
      repeat split. by destruct (additionalParts x).
Qed.

Lemma mergeCategories_server_driven_witness :
  let a := {| id := "geral"; props := ∅; photos := []; additionalParts := [] |} in
  let b := {| id := "motor"; props := ∅; photos := []; additionalParts := [] |} in
  map id (mergeCategories [a; b] [b]) = ["motor"].
Proof.
  intros a b.
  by apply (proj2 (proj2 mergeCategories_server_driven) [a; b] [b]).
Defined.

Lemma find_self_nodup l1 l2 (x : PhotoCategory) :
  NoDup (map id (l1 ++ x :: l2)) →
  List.find (λ c, String.eqb (id c) (id x)) (l1 ++ x :: l2) = Some x.
Proof.
  intros Hnd. apply find_first_id; [done|].
  intros c' Hc' E. rewrite fmap_app in Hnd. simpl in Hnd.
  apply NoDup_app in Hnd as (_ & Hdisj & _).
  apply (Hdisj (id c')).
  - apply list_elem_of_fmap. by exists c'.
  - rewrite E. constructor.
Qed.

Lemma mergeCategory_self l1 l2 (x : PhotoCategory) :
  NoDup (map id (l1 ++ x :: l2)) → mergeCategory (l1 ++ x :: l2) x = x.
Proof.
  intros Hnd. unfold mergeCategory. rewrite (find_self_nodup _ _ _ Hnd).
  rewrite mergePhotos_same. destruct x as [i p ph ap]. simpl.
  by destruct ap.
Qed.

Lemma mergeCategories_self l : NoDup (map id l) → mergeCategories l l = l.
Proof.
  intros Hnd.
  assert (mergeCategories l l = map (mergeCategory l) l) as ->.
  { unfold mergeCategories. by destruct l. }
  assert (∀ l1 l2, l = (l1 ++ l2)%list → map (mergeCategory l) l2 = l2) as H.
  { intros l1 l2. revert l1. induction l2 as [|x l2 IH]; intros l1 E; [done|].
    simpl. f_equal.
    - rewrite E. apply mergeCategory_self. by rewrite <- E.
    - apply (IH (l1 ++ [x])%list). by rewrite <- app_assoc. }
  by apply (H []).
Qed.

Lemma mergeInspection_self (local : gmap string Js.FieldVal) (serverTime lle : Z) :
  mergeInspection local serverTime lle local = local.
Proof.
  apply map_eq. intros k. rewrite mergeInspection_lookup.
  destruct (local !! k) as [v|]; [|done]. by destruct (adopts _ _ _ v).
Qed.

(** X10. Merging a state of the category-aware store with its own
    [getAllData], at any time and under any server timestamp, leaves the
    state as it is, provided its categories have distinct ids. *)
Theorem home_merge_own_data (now : Z) (ts : option Z) (st : State) :
  NoDup (map id (categories st)) →
  mergeFromData now (getAllData st) ts st = st.
Proof.
  intros Hnd. unfold mergeFromData.
  destruct (localIsNewer now ts st); [done|]. simpl.
  rewrite mergeInspection_self, (mergeCategories_self _ Hnd).
  unfold setAggregate. destruct st as [i c concl lle]. simpl. f_equal.
  by destruct (_ && _).
Qed.

Lemma home_merge_own_data_witness :
  let st := {| inspection := {["tag" := Js.FStr "T-1"]};
               categories :=
                 [ {| id := "geral"; props := ∅;
                      photos := [Photo.blank "p1"]; additionalParts := [] |};
                   {| id := "motor"; props := ∅;
                      photos := []; additionalParts := [] |} ];
               conclusion := "ok"; lastLocalEdit := 2000 |} in
  mergeFromData 3000 (getAllData st) (Some 2500) st = st.
Proof.
  intros st. apply (home_merge_own_data 3000 (Some 2500) st).
  apply (bool_decide_unpack _). by vm_compute.
Defined.

Lemma inCategory_lookup (cid : string) (f : PhotoCategory → PhotoCategory)
    l (i : nat) :
  inCategory cid f l !! i =
    (λ cat, if negb (String.eqb (id cat) cid) then cat else f cat) <$> l !! i.
Proof. unfold inCategory. apply list_lookup_fmap. Qed.

Lemma inCategory_frame (cid : string) (f : PhotoCategory → PhotoCategory) l :
  (∀ c, id (f c) = id c ∧ props (f c) = props c) →
  map id (inCategory cid f l) = map id l
  ∧ map props (inCategory cid f l) = map props l
  ∧ (∀ (i : nat) c, l !! i = Some c → id c ≠ cid →
       inCategory cid f l !! i = Some c)
  ∧ ((∀ c, c ∈ l → id c ≠ cid) → inCategory cid f l = l).
Proof.
  intros Hf. unfold inCategory. split; [|split; [|split]].
  - rewrite map_map. apply map_ext. intros c.
    destruct (negb _); [done | apply Hf].
  - rewrite map_map. apply map_ext. intros c.
    destruct (negb _); [done | apply Hf].
  - intros i c Hc Hne. rewrite list_lookup_fmap, Hc. simpl.
    by rewrite (proj2 (String.eqb_neq _ _) Hne).
  - intros Hnone. induction l as [|c l IH]; [done|]. simpl.
    rewrite (proj2 (String.eqb_neq (id c) cid)) by (apply Hnone; constructor).
    simpl. f_equal. apply IH. intros c' Hc'. apply Hnone. by constructor.
Qed.

(** X11. An action that edits one category (adding, removing or updating
    a photo, adding or removing an additional part) leaves the inspection
    and the conclusion alone, keeps the list of categories with its ids and
    properties in place, does not touch a category of another id, and
    changes no category at all when none has the given id. *)
Theorem category_edit_frame (defaults : list CategoryDef) (now : Z)
    (a : Action) (cid : string) (st : State) :
  targetCategory a = Some cid →
  let st' := run defaults now a st in
  inspection st' = inspection st
  ∧ conclusion st' = conclusion st
  ∧ map id (categories st') = map id (categories st)
  ∧ map props (categories st') = map props (categories st)
  ∧ (∀ (i : nat) c, categories st !! i = Some c → id c ≠ cid →
       categories st' !! i = Some c)
  ∧ ((∀ c, c ∈ categories st → id c ≠ cid) → categories st' = categories st).
Proof.
  intros Ht.
  destruct a; simpl in Ht; try discriminate Ht; injection Ht as ->; simpl;
    (split; [done|]); (split; [done|]); by apply inCategory_frame.
Qed.

Lemma category_edit_frame_witness :
  let geral := {| id := "geral"; props := ∅;
                  photos := [Photo.blank "p1"]; additionalParts := [] |} in
  let st := {| inspection := ∅; categories := [geral];
               conclusion := ""; lastLocalEdit := 0 |} in
  categories (run [] 1700 (RemovePhotoFromCategory "motor" "p1") st) = [geral].
Proof.
  intros geral st.
  destruct (category_edit_frame [] 1700 (RemovePhotoFromCategory "motor" "p1")
              "motor" st eq_refl) as (_ & _ & _ & _ & _ & Hnone).
  apply Hnone. intros c Hc. apply list_elem_of_singleton in Hc as ->. done.
Defined.

(** X12. [addPhotoToCategory] followed by [removePhotoFromCategory] of the
    id it has minted, [photo-<categoryId>-<now>], restores the categories,
    provided no photo of a category with that id already carries the
    minted id. *)
Theorem home_addPhoto_removePhoto (now now' : Z) (cid : string) (st : State) :
  let minted := "photo-" +:+ cid +:+ "-" +:+ pretty now in
  (∀ c p, c ∈ categories st → id c = cid → p ∈ photos c → Photo.id p ≠ minted) →
  categories (removePhotoFromCategory now' cid minted
                (addPhotoToCategory now cid st))
  = categories st.
Proof.
  intros minted Hfresh. simpl. unfold inCategory. rewrite map_map.
  rewrite <- (map_id (categories st)) at 2.
  apply map_ext_in. intros c Hc%list_elem_of_In.
  destruct (String.eqb_spec (id c) cid) as [E|E]; simpl.
  - rewrite (proj2 (String.eqb_eq _ _) E). simpl.
    unfold withPhotos. simpl. rewrite List.filter_app. simpl. fold minted.
    rewrite String.eqb_refl. simpl. rewrite app_nil_r.
    rewrite filter_all_kept.
    + by destruct c.
    + intros p Hp. apply negb_true_iff, String.eqb_neq. by apply (Hfresh c).
  - by rewrite (proj2 (String.eqb_neq _ _) E).
Qed.

Lemma home_addPhoto_removePhoto_witness :
  let geral := {| id := "geral"; props := ∅;
                  photos := [Photo.blank "p1"]; additionalParts := [] |} in
  let st := {| inspection := ∅; categories := [geral];
               conclusion := ""; lastLocalEdit := 0 |} in
  categories (removePhotoFromCategory 1800 "geral"
                ("photo-" +:+ "geral" +:+ "-" +:+ pretty 1700)
                (addPhotoToCategory 1700 "geral" st))
  = [geral].
Proof.
  intros geral st. apply (home_addPhoto_removePhoto 1700 1800 "geral" st).
  intros c p Hc _ Hp. apply list_elem_of_singleton in Hc as ->.
  apply list_elem_of_singleton in Hp as ->. by vm_compute.
Defined.

Lemma includes_elem (ids : list string) (x : string) :
  includes ids x = true ↔ x ∈ ids.
Proof.
  unfold includes. rewrite existsb_exists, list_elem_of_In. split.
  - intros (y & Hy & E). by apply String.eqb_eq in E as ->.
  - intros H. exists x. split; [done | apply String.eqb_refl].
Qed.

(** X13. The storage migration: from a version older than the current one
    it keeps exactly the persisted categories whose id is an id of
    [DEFAULT_CATEGORIES] and leaves every other key alone, so a snapshot
    whose categories all have valid ids, such as the initial categories, is
    unchanged; at the current version or later, or without a [categories]
    key, the snapshot is returned as it is, invalid categories included.
    Migrating twice from the same version is migrating once. *)
Theorem migrate_filters_categories (defaults : list CategoryDef)
    (ps : PersistedState) (version : Z) :
  let ps' := migrate defaults ps version in
  ps_inspection ps' = ps_inspection ps
  ∧ ps_conclusion ps' = ps_conclusion ps
  ∧ ps_lastLocalEdit ps' = ps_lastLocalEdit ps
  ∧ ((version < STORAGE_VERSION)%Z →
     ∀ cats, ps_categories ps = Some cats →
       ∃ cats', ps_categories ps' = Some cats'
         ∧ (∀ c, c ∈ cats' ↔ c ∈ cats ∧ id c ∈ map def_id defaults)
         ∧ ((∀ c, c ∈ cats → id c ∈ map def_id defaults) → cats' = cats))
  ∧ ((STORAGE_VERSION ≤ version)%Z ∨ ps_categories ps = None → ps' = ps)
  ∧ (ps_categories ps = Some (createInitialCategories defaults) → ps' = ps)
  ∧ migrate defaults ps' version = ps'.
Proof.
  assert (∀ cats,
            (∀ c, c ∈ cats → id c ∈ map def_id defaults) →
            List.filter (λ cat, includes (VALID_CATEGORY_IDS defaults) (id cat)) cats
            = cats) as Hall.
  { intros cats H. apply filter_all_kept. intros c Hc.
    apply includes_elem. by apply H. }
  assert (∀ cats c,
            c ∈ List.filter
                  (λ cat, includes (VALID_CATEGORY_IDS defaults) (id cat)) cats
            ↔ c ∈ cats ∧ id c ∈ map def_id defaults) as Hmem.
  { intros cats c. rewrite (list_elem_of_In _ c), filter_In, includes_elem.
    by rewrite <- list_elem_of_In. }
  unfold migrate.
  destruct (Z.ltb_spec version STORAGE_VERSION) as [Hlt|Hge].
  2:{ simpl. repeat split; try done. intros ?; lia. }
  destruct (ps_categories ps) as [cats|] eqn:Hc.
  2:{ simpl. rewrite Hc. repeat split; try done. }
  simpl. split; [done|]. split; [done|]. split; [done|].
  split; [|split; [|split]].
  - intros _ cats0 [= <-]. eexists. split; [done|]. split; [apply Hmem | apply Hall].
  - intros [?|?]; [lia | done].
  - intros [= ->]. destruct ps as [pi pc pco pl]. simpl in *. subst pc.
    f_equal. f_equal. apply Hall. intros c Hc'.
    unfold createInitialCategories in Hc'.
    apply list_elem_of_fmap in Hc' as (d & -> & Hd). simpl.
    apply list_elem_of_fmap. by exists d.
  - f_equal. f_equal. apply Hall. intros c Hc'. by apply Hmem in Hc' as [_ ?].
Qed.

Lemma migrate_filters_categories_witness :
  let defaults := [ {| def_id := "geral"; def_props := ∅ |} ] in
  let keep := {| id := "geral"; props := ∅; photos := [];
                 additionalParts := [] |} in
  let drop := {| id := "retired"; props := ∅; photos := [];
                 additionalParts := [] |} in
  let ps := {| ps_inspection := None; ps_categories := Some [drop; keep];
               ps_conclusion := None; ps_lastLocalEdit := Some 0 |} in
  ∃ cats', ps_categories (migrate defaults ps 2) = Some cats'
           ∧ (keep ∈ cats') ∧ ¬ (drop ∈ cats').
Proof.
  intros defaults keep drop ps.
  destruct (migrate_filters_categories defaults ps 2)
    as (_ & _ & _ & Hold & _).
  destruct (Hold ltac:(by vm_compute) [drop; keep] eq_refl)
    as (cats' & Hc & Hmem & _).
  exists cats'. split; [done|]. split.
  - apply Hmem. split; [by repeat constructor | by apply list_elem_of_singleton].
  - intros [_ Hbad]%Hmem. by apply list_elem_of_singleton in Hbad.
Defined.

Lemma localEditTimeOf_eq (st : State) : localEditTimeOf st = lastLocalEdit st.
Proof. apply num_or_zero. Qed.

Lemma localIsNewer_false_newer (now : Z) (ts : option Z) (st : State) :
  serverTimeOf ts now > lastLocalEdit st → localIsNewer now ts st = false.
Proof.
  intros H. unfold localIsNewer. rewrite localEditTimeOf_eq.
  apply andb_false_iff. left. rewrite Z.gtb_ltb. apply Z.ltb_ge. lia.
Qed.

(** X14. Authority in the timestamp-authoritative merge.  When the server
    time is not strictly after the last local edit, every populated local
    inspection field and a non-empty local conclusion come out unchanged.
    When the server time is strictly after it, every populated server field
    and a non-empty server conclusion replace the local ones.  (The server
    time is [serverTimestamp], or the current time when that is absent
    or 0.) *)
Theorem home_merge_authority (now : Z) (data : Data) (ts : option Z)
    (st : State) :
  let serverTime := serverTimeOf ts now in
  let st' := mergeFromData now data ts st in
  ((serverTime ≤ lastLocalEdit st)%Z →
     (∀ k, Js.has_value (Js.get (inspection st) k) = true →
           Js.get (inspection st') k = Js.get (inspection st) k)
     ∧ (conclusion st ≠ "" → conclusion st' = conclusion st))
  ∧ (serverTime > lastLocalEdit st →
     (∀ k, Js.has_value (Js.get (default ∅ (data_inspection data)) k) = true →
           Js.get (inspection st') k
           = Js.get (default ∅ (data_inspection data)) k)
     ∧ (∀ c, data_conclusion data = Some c → c ≠ "" → conclusion st' = c)).
Proof.
  intros serverTime st'. split.
  - intros Hle. split.
    + intros k HL. subst st'. rewrite home_get_merged.
      destruct (localIsNewer now ts st); [done|].
      unfold adopts. rewrite <- (has_value_truthy (Js.get (inspection st) k)), HL.
      rewrite localEditTimeOf_eq. fold serverTime.
      rewrite Z.gtb_ltb, (proj2 (Z.ltb_ge _ _)) by lia.
      by rewrite andb_false_r.
    + intros Hc. subst st'. unfold mergeFromData.
      destruct (localIsNewer now ts st); [done|]. simpl.
      destruct (data_conclusion data) as [c|]; [|done].
      rewrite (proj2 (str_truthy_true _) Hc). simpl.
      rewrite localEditTimeOf_eq. fold serverTime.
      rewrite Z.gtb_ltb, (proj2 (Z.ltb_ge _ _)) by lia.
      by rewrite andb_false_r.
  - intros Hgt. split.
    + intros k HS. subst st'. rewrite home_get_merged.
      rewrite (localIsNewer_false_newer _ _ _ Hgt).
      unfold adopts. rewrite <- has_value_truthy, HS.
      rewrite localEditTimeOf_eq. fold serverTime.
      rewrite (proj2 (Z.gtb_gt _ _)) by lia.
      by rewrite orb_true_r.
    + intros c Hd Hc. subst st'. unfold mergeFromData.
      rewrite (localIsNewer_false_newer _ _ _ Hgt). simpl. rewrite Hd.
      rewrite (proj2 (str_truthy_true _) Hc). simpl.
      rewrite localEditTimeOf_eq. fold serverTime.
      rewrite (proj2 (Z.gtb_gt _ _)) by lia.
      by rewrite orb_true_r.
Qed.

Lemma home_merge_authority_witness :
  let st := {| inspection := {["tag" := Js.FStr "T-1"]}; categories := [];
               conclusion := "local"; lastLocalEdit := 2000 |} in
  let data := {| data_inspection := Some {["tag" := Js.FStr "T-2"]};
                 data_categories := None;
                 data_conclusion := Some "server" |} in
  conclusion (mergeFromData 3000 data (Some 2000) st) = "local"
  ∧ conclusion (mergeFromData 3000 data (Some 2001) st) = "server".
Proof.
  intros st data. split.
  - apply (proj1 (home_merge_authority 3000 data (Some 2000) st));
      by vm_compute.
  - apply (proj2 (proj2 (home_merge_authority 3000 data (Some 2001) st)
                    ltac:(by vm_compute)) "server"); by vm_compute.
Defined.

(** X15. When the server time is strictly after the last local edit, the
    timestamp-authoritative merge computes the same inspection as the
    unconditional merge of the flat store on the same local and server
    inspections. *)
Theorem strategies_agree_when_server_newer (now : Z) (data : Data)
    (ts : option Z) (st : State) (fdata : ReportStore.Data) (fts : option Z)
    (fst : ReportStore.State) :
  serverTimeOf ts now > lastLocalEdit st →
  ReportStore.inspection fst = inspection st →
  ReportStore.data_inspection fdata = data_inspection data →
  inspection (mergeFromData now data ts st)
  = ReportStore.inspection (ReportStore.mergeFromData fdata fts fst).
Proof.
  intros Hgt Hl Hd. unfold mergeFromData, ReportStore.mergeFromData,
    ReportStore.mergeResult.
  rewrite (localIsNewer_false_newer _ _ _ Hgt). simpl. rewrite Hl, Hd.
  destruct (data_inspection data) as [i|]; [|done]. simpl.
  apply map_eq. intros k.
  rewrite mergeInspection_lookup, flat_fold_lookup.
  destruct (i !! k) as [v|]; [|done].
  unfold adopts. rewrite localEditTimeOf_eq.
  rewrite (proj2 (Z.gtb_gt _ _)) by lia.
  by rewrite orb_true_r, andb_true_r, <- (has_value_truthy v).
Qed.

Lemma strategies_agree_when_server_newer_witness :
  let st := {| inspection := {["tag" := Js.FStr "T-1"]}; categories := [];
               conclusion := ""; lastLocalEdit := 2000 |} in
  let data := {| data_inspection := Some {["tag" := Js.FStr "T-2"]};
                 data_categories := None; data_conclusion := None |} in
  let fst := ReportStore.updateInspection 2000 {["tag" := Js.FStr "T-1"]}
               (ReportStore.setAggregate ∅ [] "" ReportStore.initialState) in
  let fdata := {| ReportStore.data_inspection := Some {["tag" := Js.FStr "T-2"]};
                  ReportStore.data_photos := None;
                  ReportStore.data_conclusion := None |} in
  inspection (mergeFromData 3000 data (Some 2500) st)
  = ReportStore.inspection (ReportStore.mergeFromData fdata None fst).
Proof.
  intros st data fst fdata.
  apply (strategies_agree_when_server_newer 3000 data (Some 2500) st fdata None fst);
    by vm_compute.
Defined.

(** X16. Sharing round trip of the category-aware store: when the
    inspection of a state has every field of the default inspection,
    loading its [getAllData] into any state reproduces its inspection,
    categories and conclusion exactly, and loading it into the state itself
    changes nothing. *)
Theorem home_load_getAllData (defaults : list CategoryDef) (st other : State) :
  dom initialInspection ⊆ dom (inspection st) →
  getAllData (loadFromData defaults (getAllData st) other) = getAllData st
  ∧ loadFromData defaults (getAllData st) st = st.
Proof.
  intros Hdom. unfold loadFromData, getAllData, setAggregate. simpl.
  rewrite (spread_covered _ _ Hdom), str_or_decide.
  assert ((if decide (conclusion st = "") then "" else conclusion st)
          = conclusion st) as -> by (by case_decide).
  split; [done | by destruct st].
Qed.

Lemma home_load_getAllData_witness :
  let st := setConclusion 1700 "done" (initialState []) in
  getAllData (loadFromData [] (getAllData st) (initialState [])) = getAllData st.
Proof.
  intros st. apply (home_load_getAllData [] st (initialState [])).
  by vm_compute.
Defined.

End HomeStoreFacts.

(** ** The session store under the handler *)

Section SessionFacts.

Import Collab.

Implicit Types db : DB.

#[local] Arguments generateId : simpl never.

(** The actions the [switch] knows. *)
Lemma dispatch_cases (env : Env) (draw : nat → nat) (now : Z) db (body : Body) :
  (action body = "create"
   ∧ dispatch env draw now db body = createCase env draw now db body)
  ∨ (action body = "join" ∧ dispatch env draw now db body = joinCase now db body)
  ∨ (action body = "leave" ∧ dispatch env draw now db body = leaveCase db body)
  ∨ (action body = "poll" ∧ dispatch env draw now db body = pollCase now db body)
  ∨ (action body = "update"
     ∧ dispatch env draw now db body = updateCase now db body)
  ∨ (action body = "get" ∧ dispatch env draw now db body = getCase db body)
  ∨ (action body = "delete" ∧ dispatch env draw now db body = deleteCase db body)
  ∨ ((action body ∉ ["create"; "join"; "leave"; "poll"; "update"; "get"; "delete"])
     ∧ dispatch env draw now db body = Some (db, failure 400 "Invalid action")).
Proof.
  unfold dispatch.
  destruct (String.eqb_spec (action body) "create") as [E|N1]; [by left|].
  destruct (String.eqb_spec (action body) "join") as [E|N2]; [by right; left|].
  destruct (String.eqb_spec (action body) "leave") as [E|N3];
    [by right; right; left|].
  destruct (String.eqb_spec (action body) "poll") as [E|N4];
    [by right; right; right; left|].
  destruct (String.eqb_spec (action body) "update") as [E|N5];
    [by right; right; right; right; left|].
  destruct (String.eqb_spec (action body) "get") as [E|N6];
    [by right; right; right; right; right; left|].
  destruct (String.eqb_spec (action body) "delete") as [E|N7];
    [by right; right; right; right; right; right; left|].
  do 7 right. split; [|done].
  intros Ha.
  repeat (apply elem_of_cons in Ha as [Ha|Ha]; [done|]).
  by apply elem_of_nil in Ha.
Qed.

(** The session a request can write: the minted one for create, the named
    one otherwise. *)
Lemma POST_writes_one (env : Env) (draw : nat → nat) (now : Z) db (body : Body)
    (sid : string) :
  sid ≠ (if String.eqb (action body) "create" then generateId draw 8
         else sessionId body) →
  (POST env draw now db body).1 !! sid = db !! sid.
Proof.
  intros Hne. unfold POST.
  destruct (dispatch_cases env draw now db body)
    as [[Ha ->]|[[Ha ->]|[[Ha ->]|[[Ha ->]|[[Ha ->]|[[Ha ->]|[[Ha ->]|[_ ->]]]]]]]];
    try done; rewrite Ha in Hne; simpl in Hne.
  - unfold createCase, db_create. simpl.
    destruct (db !! generateId draw 8); simpl; [done|].
    by rewrite lookup_insert_ne.
  - unfold joinCase, findUnique, db_update.
    destruct (db !! sessionId body); simpl; [|done].
    by rewrite lookup_insert_ne.
  - unfold leaveCase, findUnique, db_update.
    destruct (db !! sessionId body); simpl; [|done].
    destruct (userId body) as [uid|]; [|done].
    destruct (Js.str_truthy uid); [|done].
    destruct (sd_users _) as [us|]; [|done].
    destruct (us !! uid); [|done]. simpl.
    by rewrite lookup_insert_ne.
  - unfold pollCase, findUnique, db_update.
    destruct (db !! sessionId body); simpl; [|done].
    by rewrite lookup_insert_ne.
  - unfold updateCase, findUnique, db_update.
    destruct (db !! sessionId body); simpl; [|done].
    by rewrite lookup_insert_ne.
  - unfold getCase, findUnique. by destruct (db !! sessionId body).
  - unfold deleteCase, db_delete. simpl.
    destruct (db !! sessionId body); simpl; [|done].
    by rewrite lookup_delete_ne.
Qed.

(** X17. A request writes at most one session: every session other than
    the one it names (for create, other than the one it mints) is stored
    after the request exactly as before, whatever the action and its
    outcome. *)
Theorem other_sessions_untouched (env : Env) (draw : nat → nat) (now : Z) db
    (body : Body) (sid : string) :
  sid ≠ (if String.eqb (action body) "create" then generateId draw 8
         else sessionId body) →
  (POST env draw now db body).1 !! sid = db !! sid.
Proof. apply POST_writes_one. Qed.

Lemma other_sessions_untouched_witness :
  let env := {| NEXTAUTH_URL := None; VERCEL_URL := None |} in
  let body := {| action := "delete"; sessionId := "AAAAAAAA"; userId := None;
                 data := None; type := None; field := None; value := None;
                 timestamp := None; lastUpdate := None; initialData := None |} in
  let row :=
    {| row_sessionId := "BBBBBBBB"; row_creatorId := "collaboration";
       row_creatorName := "Collaboration Session";
       row_reportType := "collaboration"; row_permission := "edit";
       row_data := {| sd_data := Some JNull; sd_users := Some ∅;
                      sd_updates := Some []; sd_lastUpdated := Some 1000 |};
       row_expiresAt := 86401000 |} in
  let db : DB := {["BBBBBBBB" := row]} in
  (POST env (λ _, 0%nat) 1000 db body).1 !! "BBBBBBBB" = Some row.
Proof.
  intros env body row db.
  rewrite (other_sessions_untouched env (λ _, 0%nat) 1000 db body "BBBBBBBB")
    by done.
  apply lookup_insert_eq.
Defined.

Ltac known_action H :=
  exfalso; apply H; by repeat constructor.

Ltac table :=
  repeat split; intros; try done; try lia;
  repeat match goal with
         | H : _ ∧ _ |- _ => destruct H
         | H : _ ∨ _ |- _ => destruct H
         | H : is_Some _ |- _ => destruct H
         end;
  simplify_eq; try done; eauto;
  try match goal with
      | E : action ?b = _, H : action ?b ∉ _ |- _ => rewrite E in H; known_action H
      | H : _ ∉ _ |- _ => known_action H
      end.

(** X18. The status of every answer of the handler that is not the 500
    of its [catch] block.  It is 400 exactly for an action other than the
    seven known ones, 404 exactly for join, poll, update or get on an absent
    session, and 200 with [success: true] in every other case; an answer
    that is not a success leaves the store as it was. *)
Theorem status_table (env : Env) (draw : nat → nat) (now : Z) db (body : Body) :
  let r := (POST env draw now db body).2 in
  status r ≠ 500 →
  (status r = 400
   ↔ action body ∉ ["create"; "join"; "leave"; "poll"; "update"; "get"; "delete"])
  ∧ (status r = 404
     ↔ (action body = "join" ∨ action body = "poll" ∨ action body = "update"
        ∨ action body = "get")
       ∧ db !! sessionId body = None)
  ∧ (status r = 200 ↔ success r = true)
  ∧ (status r = 200 ∨ status r = 400 ∨ status r = 404)
  ∧ (success r = false → (POST env draw now db body).1 = db).
Proof.
  unfold POST.
  destruct (dispatch_cases env draw now db body)
    as [[Ha ->]|[[Ha ->]|[[Ha ->]|[[Ha ->]|[[Ha ->]|[[Ha ->]|[[Ha ->]|[Ha ->]]]]]]]];
    try rewrite Ha.
  - unfold createCase, db_create. simpl.
    destruct (db !! generateId draw 8) eqn:E; simpl; table.
  - unfold joinCase, findUnique, db_update.
    destruct (db !! sessionId body) eqn:E; simpl; table.
  - unfold leaveCase, findUnique, db_update.
    destruct (db !! sessionId body) eqn:E; simpl; [|table].
    destruct (userId body) as [uid|]; [|table].
    destruct (Js.str_truthy uid); [|table].
    destruct (sd_users _) as [us|]; [|table].
    destruct (us !! uid); simpl; table.
  - unfold pollCase, findUnique, db_update.
    destruct (db !! sessionId body) eqn:E; simpl; table.
  - unfold updateCase, findUnique, db_update.
    destruct (db !! sessionId body) eqn:E; simpl; table.
  - unfold getCase, findUnique.
    destruct (db !! sessionId body) eqn:E; simpl; table.
  - unfold deleteCase. simpl. table.
  - simpl. table.
Qed.

Lemma status_table_witness :
  let env := {| NEXTAUTH_URL := None; VERCEL_URL := None |} in
  let body := {| action := "rename"; sessionId := "AAAAAAAA"; userId := None;
                 data := None; type := None; field := None; value := None;
                 timestamp := None; lastUpdate := None; initialData := None |} in
  status (POST env (λ _, 0%nat) 1000 ∅ body).2 = 400.
Proof.
  intros env body.
  apply (proj1 (status_table env (λ _, 0%nat) 1000 ∅ body ltac:(by vm_compute))).
  intros Ha. repeat (apply elem_of_cons in Ha as [Ha|Ha]; [done|]).
  by apply elem_of_nil in Ha.
Defined.

Lemma POST_join (env : Env) (draw : nat → nat) (now : Z) db (body : Body) :
  action body = "join" →
  POST env draw now db body =
    match db !! sessionId body with
    | None => (db, notFound)
    | Some session =>
        let users :=
          setUser (userKey (userId body))
            {| u_id := userId body; u_joinedAt := now; u_lastSeen := now |}
            (default ∅ (sd_users (row_data session))) in
        let sessionData :=
          if opt_json_truthy (initialData body) then
            {| sd_data := initialData body; sd_users := Some users;
               sd_updates := sd_updates (row_data session);
               sd_lastUpdated := Some now |}
          else withUsers (Some users) (row_data session) in
        (<[sessionId body := withData sessionData session]> db,
         {| status := 200; success := true; error := None;
            res_sessionId := Some (row_sessionId session);
            res_shareLink := None; res_data := sd_data sessionData;
            res_userCount := Some (size users); res_updates := None;
            res_timestamp := None |})
    end.
Proof.
  intros Ha. unfold POST, dispatch, joinCase, findUnique. rewrite Ha. simpl.
  destruct (db !! sessionId body) as [session|] eqn:Hs; [|done].
  by rewrite (db_update_found _ _ _ _ Hs).
Qed.





(** X19. Join on an existing session answers success and registers the
    caller under its [userId] (under the key [undefined] when the request
    has none) with [joinedAt] and [lastSeen] set to the current time, also
    when the caller was registered before; no other participant is
    touched.  The one key that registers nobody is [__proto__]: the
    participants then stay as they were.  In both cases no logged update is
    touched and the reported count is the number of participants after the
    request.  A supplied (truthy) [initialData] replaces the canonical data
    and sets [lastUpdated]; otherwise both stay.  The answer carries the
    canonical data as a subsequent get returns it. *)
Theorem join_contract (env : Env) (draw : nat → nat) (now : Z) db
    (body : Body) (session : SharedSession) :
  action body = "join" →
  db !! sessionId body = Some session →
  let db' := (POST env draw now db body).1 in
  let r := (POST env draw now db body).2 in
  let us := default ∅ (sd_users (row_data session)) in
  let key := default "undefined" (userId body) in
  success r = true
  ∧ ∃ session' us',
      db' !! sessionId body = Some session'
      ∧ sd_users (row_data session') = Some us'
      ∧ (key ≠ "__proto__" →
           us' !! key = Some {| u_id := userId body; u_joinedAt := now;
                                u_lastSeen := now |}
           ∧ (∀ id, id ≠ key → us' !! id = us !! id)
           ∧ size us' = (if decide (is_Some (us !! key)) then size us
                         else S (size us)))
      ∧ (key = "__proto__" → us' = us)
      ∧ res_userCount r = Some (size us')
      ∧ sd_updates (row_data session') = sd_updates (row_data session)
      ∧ (opt_json_truthy (initialData body) = true →
           sd_data (row_data session') = initialData body
           ∧ sd_lastUpdated (row_data session') = Some now)
      ∧ (opt_json_truthy (initialData body) = false →
           sd_data (row_data session') = sd_data (row_data session)
           ∧ sd_lastUpdated (row_data session')
             = sd_lastUpdated (row_data session))
      ∧ res_data r = sd_data (row_data session')
      ∧ (∀ (env' : Env) (draw' : nat → nat) (now' : Z) (get : Body),
           action get = "get" → sessionId get = sessionId body →
           res_data (POST env' draw' now' db' get).2 = res_data r).
Proof.
  intros Ha Hs db' r us key. subst db' r.
  rewrite (POST_join _ _ _ _ _ Ha), Hs. cbn zeta.
  fold us. change (userKey (userId body)) with key.
  set (users := setUser key _ us).
  set (sd' := if opt_json_truthy (initialData body) then _ else _).
  assert (sd_users sd' = Some users) as Husers.
  { subst sd'. by destruct (opt_json_truthy _). }
  assert (sd_updates sd' = sd_updates (row_data session)) as Hupd.
  { subst sd'. by destruct (opt_json_truthy _). }
  cbn [fst snd success res_userCount res_data].
  split; [done|]. exists (withData sd' session), users.
  rewrite lookup_insert_eq. cbn [withData row_data].
  split; [done|]. split; [done|].
  split.
  { intros Hkey. subst users. unfold setUser.
    destruct (String.eqb_spec key "__proto__") as [|_]; [done|].
    split; [by rewrite lookup_insert_eq|].
    split; [by intros id Hid; rewrite lookup_insert_ne|].
    case_decide as Hk.
    - by apply map_size_insert_Some.
    - apply map_size_insert_None. by apply eq_None_not_Some. }
  split.
  { intros Hkey. subst users. unfold setUser. by rewrite Hkey. }
  split; [done|]. split; [done|].
  split; [by intros Ht; subst sd'; rewrite Ht|].
  split; [by intros Ht; subst sd'; rewrite Ht|].
  split; [done|].
  intros env' draw' now' get Hg Hsid.
  by rewrite (POST_get _ _ _ _ _ Hg), Hsid, lookup_insert_eq.
Qed.

Lemma join_contract_witness :
  let env := {| NEXTAUTH_URL := None; VERCEL_URL := None |} in
  let row :=
    {| row_sessionId := "AAAAAAAA"; row_creatorId := "collaboration";
       row_creatorName := "Collaboration Session";
       row_reportType := "collaboration"; row_permission := "edit";
       row_data := {| sd_data := Some JNull; sd_users := Some ∅;
                      sd_updates := Some []; sd_lastUpdated := Some 1000 |};
       row_expiresAt := 86401000 |} in
  let db : DB := {["AAAAAAAA" := row]} in
  let join := {| action := "join"; sessionId := "AAAAAAAA"; userId := Some "u1";
                 data := None; type := None; field := None; value := None;
                 timestamp := None; lastUpdate := None;
                 initialData := Some (JObj [("conclusion", JStr "X")]) |} in
  success (POST env (λ _, 0%nat) 2000 db join).2 = true.
Proof.
  intros env row db join.
  exact (proj1 (join_contract env (λ _, 0%nat) 2000 db join row eq_refl
                  (lookup_insert_eq _ _ _))).
Defined.



Lemma POST_delete (env : Env) (draw : nat → nat) (now : Z) db (body : Body) :
  action body = "delete" →
  POST env draw now db body = (delete (sessionId body) db, ok).
Proof.
  intros Ha. unfold POST, dispatch, deleteCase, db_delete. rewrite Ha. simpl.
  destruct (db !! sessionId body) eqn:E; simpl; [done|].
  by rewrite (delete_id _ _ E).
Qed.

(** X21. Delete answers success and leaves no session under the given id:
    a following join, poll, update or get on that id answers 404, and a
    second delete changes nothing more. *)
Theorem delete_contract (env : Env) (draw : nat → nat) (now : Z) db
    (body : Body) :
  action body = "delete" →
  let db' := (POST env draw now db body).1 in
  success (POST env draw now db body).2 = true
  ∧ db' !! sessionId body = None
  ∧ (POST env draw now db' body).1 = db'
  ∧ (∀ (env' : Env) (draw' : nat → nat) (now' : Z) (next : Body),
       sessionId next = sessionId body →
       action next = "join" ∨ action next = "poll" ∨ action next = "update"
       ∨ action next = "get" →
       status (POST env' draw' now' db' next).2 = 404
       ∧ (POST env' draw' now' db' next).1 = db').
Proof.
  intros Ha db'. subst db'. rewrite (POST_delete _ _ _ _ _ Ha). cbn [fst snd].
  split; [done|]. split; [apply lookup_delete_eq|].
  split.
  { rewrite (POST_delete _ _ _ _ _ Ha). cbn [fst].
    apply delete_id, lookup_delete_eq. }
  intros env' draw' now' next Hsid Hact.
  assert (delete (sessionId body) db !! sessionId next = None) as Hnone
    by (rewrite Hsid; apply lookup_delete_eq).
  destruct Hact as [Hn|[Hn|[Hn|Hn]]].
  - by rewrite (POST_join _ _ _ _ _ Hn), Hnone.
  - by rewrite (POST_poll _ _ _ _ _ Hn), Hnone.
  - by rewrite (POST_update _ _ _ _ _ Hn), Hnone.
  - by rewrite (POST_get _ _ _ _ _ Hn), Hnone.
Qed.

Lemma delete_contract_witness :
  let env := {| NEXTAUTH_URL := None; VERCEL_URL := None |} in
  let row :=
    {| row_sessionId := "AAAAAAAA"; row_creatorId := "collaboration";
       row_creatorName := "Collaboration Session";
       row_reportType := "collaboration"; row_permission := "edit";
       row_data := {| sd_data := Some JNull; sd_users := Some ∅;
                      sd_updates := Some []; sd_lastUpdated := Some 1000 |};
       row_expiresAt := 86401000 |} in
  let db : DB := {["AAAAAAAA" := row]} in
  let del := {| action := "delete"; sessionId := "AAAAAAAA"; userId := None;
                data := None; type := None; field := None; value := None;
                timestamp := None; lastUpdate := None; initialData := None |} in
  (POST env (λ _, 0%nat) 2000 db del).1 !! "AAAAAAAA" = None.
Proof.
  intros env row db del.
  exact (proj1 (proj2 (delete_contract env (λ _, 0%nat) 2000 db del eq_refl))).
Defined.

(** X22. After an update or a poll on an existing session every entry of
    the stored update log is less than 5 minutes older than the server
    time of that request, and a poll never lengthens the log. *)
Theorem log_within_window (env : Env) (draw : nat → nat) (now : Z) db
    (body : Body) (session : SharedSession) :
  action body = "update" ∨ action body = "poll" →
  db !! sessionId body = Some session →
  ∃ session',
    (POST env draw now db body).1 !! sessionId body = Some session'
    ∧ (∀ u, u ∈ default [] (sd_updates (row_data session')) →
            now - su_timestamp u < maxInactive)
    ∧ (action body = "poll" →
       (length (default [] (sd_updates (row_data session')))
        ≤ length (default [] (sd_updates (row_data session))))%nat).
Proof.
  intros [Ha|Ha] Hs.
  - rewrite (POST_update _ _ _ _ _ Ha), Hs. cbn [fst].
    eexists. rewrite lookup_insert_eq. split; [done|].
    cbn [withData row_data sd_updates default]. split.
    + intros u [_ Hu]%list_elem_of_In%filter_In. by apply recent_true.
    + intros Hp. rewrite Ha in Hp. done.
  - rewrite (POST_poll _ _ _ _ _ Ha), Hs. cbn zeta. cbn [fst].
    eexists. rewrite lookup_insert_eq. split; [done|].
    cbn [withData row_data sd_updates].
    destruct (sd_updates (row_data session)) as [l|]; simpl.
    + split; [|intros _; apply List.filter_length_le].
      intros u [_ Hu]%list_elem_of_In%filter_In. by apply recent_true.
    + split; [|done]. intros u Hu. by apply elem_of_nil in Hu.
Qed.

Lemma log_within_window_witness :
  let env := {| NEXTAUTH_URL := None; VERCEL_URL := None |} in
  let old := {| su_userId := Some "u1"; su_type := "field"; su_data := None;
                su_field := Some "inspection.tag"; su_value := Some (JStr "T-1");
                su_timestamp := 1000 |} in
  let row :=
    {| row_sessionId := "AAAAAAAA"; row_creatorId := "collaboration";
       row_creatorName := "Collaboration Session";
       row_reportType := "collaboration"; row_permission := "edit";
       row_data := {| sd_data := Some JNull; sd_users := Some ∅;
                      sd_updates := Some [old]; sd_lastUpdated := Some 1000 |};
       row_expiresAt := 86401000 |} in
  let db : DB := {["AAAAAAAA" := row]} in
  let poll := {| action := "poll"; sessionId := "AAAAAAAA"; userId := None;
                 data := None; type := None; field := None; value := None;
                 timestamp := None; lastUpdate := None; initialData := None |} in
  ∃ session',
    (POST env (λ _, 0%nat) 900000 db poll).1 !! "AAAAAAAA" = Some session'
    ∧ ∀ u, u ∈ default [] (sd_updates (row_data session')) →
           900000 - su_timestamp u < maxInactive.
Proof.
  intros env old row db poll.
  destruct (log_within_window env (λ _, 0%nat) 900000 db poll row
              (or_intror eq_refl) (lookup_insert_eq _ _ _))
    as (session' & Hs & Hw & _).
  by exists session'.
Defined.

Lemma touch_size (now : Z) (o : option string) (us t : gmap string User) :
  touch now o (Some us) = Some t → size t = size us.
Proof.
  unfold touch. destruct o as [uid|]; [|by intros [= ->]].
  destruct (Js.str_truthy uid); [|by intros [= ->]].
  destruct (us !! uid) as [u|] eqn:Hu; [|by intros [= ->]].
  intros [= <-]. by apply map_size_insert_Some.
Qed.

(** X23. Poll on an existing session changes neither the canonical data
    nor [lastUpdated], and never adds a participant: whoever is a
    participant afterwards was one before, with the same id and
    [joinedAt], so the reported count is at most the number of participants
    before; a caller who is not a participant stays out. *)
Theorem poll_frame (env : Env) (draw : nat → nat) (now : Z) db
    (body : Body) (session : SharedSession) :
  action body = "poll" →
  db !! sessionId body = Some session →
  let us := default ∅ (sd_users (row_data session)) in
  ∃ session',
    (POST env draw now db body).1 !! sessionId body = Some session'
    ∧ sd_data (row_data session') = sd_data (row_data session)
    ∧ sd_lastUpdated (row_data session') = sd_lastUpdated (row_data session)
    ∧ (∀ id u', default ∅ (sd_users (row_data session')) !! id = Some u' →
         ∃ u, us !! id = Some u ∧ u_id u' = u_id u
              ∧ u_joinedAt u' = u_joinedAt u)
    ∧ (∃ n, res_userCount (POST env draw now db body).2 = Some n
            ∧ n = size (default ∅ (sd_users (row_data session')))
            ∧ (n ≤ size us)%nat).
Proof.
  intros Ha Hs us. rewrite (POST_poll _ _ _ _ _ Ha), Hs. cbn zeta.
  cbn [fst snd res_userCount].
  eexists. rewrite lookup_insert_eq. split; [done|].
  cbn [withData row_data sd_data sd_lastUpdated sd_users].
  split; [done|]. split; [done|]. subst us.
  destruct (sd_users (row_data session)) as [us|]; simpl.
  2:{ assert (touch now (userId body) None = None) as ->
        by (unfold touch; by destruct (userId body)).
      simpl. split; [|by exists 0%nat].
      intros id u' Hu'. by rewrite lookup_empty in Hu'. }
  destruct (touch_lookup now (userId body) us) as (t & Ht & Hlook).
  rewrite Ht. simpl. split.
  - intros id u' [Hu' _]%pruneUsers_lookup. rewrite Hlook in Hu'.
    case_bool_decide.
    + destruct (us !! id) as [u|]; [|done]. simpl in Hu'.
      injection Hu' as <-. by exists u.
    + by exists u'.
  - eexists. split; [done|]. split; [done|].
    rewrite <- (touch_size _ _ _ _ Ht).
    apply map_subseteq_size, map_filter_subseteq.
Qed.

Lemma poll_frame_witness :
  let env := {| NEXTAUTH_URL := None; VERCEL_URL := None |} in
  let row :=
    {| row_sessionId := "AAAAAAAA"; row_creatorId := "collaboration";
       row_creatorName := "Collaboration Session";
       row_reportType := "collaboration"; row_permission := "edit";
       row_data := {| sd_data := Some (JStr "report"); sd_users := Some ∅;
                      sd_updates := Some []; sd_lastUpdated := Some 1000 |};
       row_expiresAt := 86401000 |} in
  let db : DB := {["AAAAAAAA" := row]} in
  let poll := {| action := "poll"; sessionId := "AAAAAAAA"; userId := Some "u9";
                 data := None; type := None; field := None; value := None;
                 timestamp := None; lastUpdate := None; initialData := None |} in
  ∃ session',
    (POST env (λ _, 0%nat) 2000 db poll).1 !! "AAAAAAAA" = Some session'
    ∧ sd_data (row_data session') = Some (JStr "report").
Proof.
  intros env row db poll.
  destruct (poll_frame env (λ _, 0%nat) 2000 db poll row eq_refl
              (lookup_insert_eq _ _ _)) as (session' & Hs & Hd & _).
  by exists session'.
Defined.

(** What a request can do to the store. *)
Lemma POST_store (env : Env) (draw : nat → nat) (now : Z) db (body : Body) :
  (POST env draw now db body).1 = db
  ∨ (∃ session d,
       db !! sessionId body = Some session
       ∧ (POST env draw now db body).1
         = <[sessionId body := withData d session]> db)
  ∨ (POST env draw now db body).1 = delete (sessionId body) db
  ∨ (db !! generateId draw 8 = None
     ∧ ∃ row, row_sessionId row = generateId draw 8
              ∧ row_expiresAt row = now + 24 * 60 * 60 * 1000
              ∧ (POST env draw now db body).1 = <[generateId draw 8 := row]> db).
Proof.
  unfold POST.
  destruct (dispatch_cases env draw now db body)
    as [[Ha ->]|[[Ha ->]|[[Ha ->]|[[Ha ->]|[[Ha ->]|[[Ha ->]|[[Ha ->]|[_ ->]]]]]]]].
  - unfold createCase, db_create. simpl.
    destruct (db !! generateId draw 8) eqn:E; simpl; [by left|].
    do 3 right. split; [done|]. eexists. split; [|split].
    3: reflexivity.
    all: done.
  - unfold joinCase, findUnique, db_update.
    destruct (db !! sessionId body) eqn:E; simpl; [|by left].
    right; left. by eexists _, _.
  - unfold leaveCase, findUnique, db_update.
    destruct (db !! sessionId body) eqn:E; simpl; [|by left].
    destruct (userId body) as [uid|]; [|by left].
    destruct (Js.str_truthy uid); [|by left].
    destruct (sd_users _) as [us|]; [|by left].
    destruct (us !! uid); simpl; [|by left].
    right; left. by eexists _, _.
  - unfold pollCase, findUnique, db_update.
    destruct (db !! sessionId body) eqn:E; simpl; [|by left].
    right; left. by eexists _, _.
  - unfold updateCase, findUnique, db_update.
    destruct (db !! sessionId body) eqn:E; simpl; [|by left].
    right; left. by eexists _, _.
  - unfold getCase, findUnique. left. by destruct (db !! sessionId body).
  - unfold deleteCase, db_delete. simpl.
    destruct (db !! sessionId body) eqn:E; simpl; [by right; right; left|by left].
  - by left.
Qed.

(** X24. No request rewrites the columns that creation has set: a session
    stored before and after a request has the same [sessionId], creator,
    report type, permission and [expiresAt], so no action extends the
    24-hour expiry.  And if every row is stored under its own [sessionId]
    before a request, the same holds after it. *)
Theorem session_columns_fixed (env : Env) (draw : nat → nat) (now : Z) db
    (body : Body) :
  let db' := (POST env draw now db body).1 in
  (∀ sid row row',
     db !! sid = Some row → db' !! sid = Some row' →
     row_sessionId row' = row_sessionId row
     ∧ row_creatorId row' = row_creatorId row
     ∧ row_creatorName row' = row_creatorName row
     ∧ row_reportType row' = row_reportType row
     ∧ row_permission row' = row_permission row
     ∧ row_expiresAt row' = row_expiresAt row)
  ∧ ((∀ sid row, db !! sid = Some row → row_sessionId row = sid) →
     ∀ sid row', db' !! sid = Some row' → row_sessionId row' = sid).
Proof.
  intros db'. subst db'.
  destruct (POST_store env draw now db body)
    as [->|[(session & d & Hs & ->)|[->|(Hfresh & row0 & Hid & _ & ->)]]].
  - split; [|done]. intros sid row row' H1 H2. by simplify_eq.
  - split.
    + intros sid row row' H1 H2.
      destruct (decide (sessionId body = sid)) as [<-|Hne].
      * rewrite lookup_insert_eq in H2. by simplify_eq.
      * rewrite lookup_insert_ne in H2 by done. by simplify_eq.
    + intros Hkey sid row' H2.
      destruct (decide (sessionId body = sid)) as [<-|Hne].
      * rewrite lookup_insert_eq in H2. simplify_eq. simpl. by apply Hkey.
      * rewrite lookup_insert_ne in H2 by done. by apply Hkey.
  - split.
    + intros sid row row' H1 H2.
      apply lookup_delete_Some in H2 as [_ H2]. by simplify_eq.
    + intros Hkey sid row' H2.
      apply lookup_delete_Some in H2 as [_ H2]. by apply Hkey.
  - split.
    + intros sid row row' H1 H2.
      destruct (decide (generateId draw 8 = sid)) as [<-|Hne]; [congruence|].
      rewrite lookup_insert_ne in H2 by done. by simplify_eq.
    + intros Hkey sid row' H2.
      destruct (decide (generateId draw 8 = sid)) as [<-|Hne].
      * rewrite lookup_insert_eq in H2. by simplify_eq.
      * rewrite lookup_insert_ne in H2 by done. by apply Hkey.
Qed.

Lemma session_columns_fixed_witness :
  let env := {| NEXTAUTH_URL := None; VERCEL_URL := None |} in
  let row :=
    {| row_sessionId := "AAAAAAAA"; row_creatorId := "collaboration";
       row_creatorName := "Collaboration Session";
       row_reportType := "collaboration"; row_permission := "edit";
       row_data := {| sd_data := Some JNull; sd_users := Some ∅;
                      sd_updates := Some []; sd_lastUpdated := Some 1000 |};
       row_expiresAt := 86401000 |} in
  let db : DB := {["AAAAAAAA" := row]} in
  let upd := {| action := "update"; sessionId := "AAAAAAAA"; userId := Some "u1";
                data := Some (JStr "v2"); type := Some "full"; field := None;
                value := None; timestamp := None; lastUpdate := None;
                initialData := None |} in
  ∃ row', (POST env (λ _, 0%nat) 50000000 db upd).1 !! "AAAAAAAA" = Some row'
          ∧ row_expiresAt row' = 86401000.
Proof.
  intros env row db upd.
  assert (∃ row', (POST env (λ _, 0%nat) 50000000 db upd).1 !! "AAAAAAAA"
                  = Some row') as [row' H] by (eexists; by vm_compute).
  exists row'. split; [exact H|].
  exact (proj2 (proj2 (proj2 (proj2 (proj2
           (proj1 (session_columns_fixed env (λ _, 0%nat) 50000000 db upd)
              "AAAAAAAA" row row' (lookup_insert_eq _ _ _) H)))))).
Defined.

(** X25. The status query and the get action agree on whether a session
    exists and on its participant count, but an absent session is a 200
    answer with [exists: false] for the query where get answers 404; a
    query without a session id is a 400; and the reported [lastUpdated] is
    the stored one unless that is missing or 0, in which case it is the
    row's [updatedAt]. *)
Theorem status_query_agrees_with_get (columns : SharedSession → Columns)
    (env : Env) (draw : nat → nat) (now : Z) db (get : Body) :
  action get = "get" →
  let r := (POST env draw now db get).2 in
  (sessionId get ≠ "" →
     let q := GET columns db (Some (sessionId get)) in
     st_status q = 200
     ∧ st_success q = success r
     ∧ st_exists q = Some (success r)
     ∧ st_userCount q = res_userCount r
     ∧ (success r = false → status r = 404)
     ∧ (∀ row, db !! sessionId get = Some row →
          st_createdAt q = Some (createdAt (columns row))
          ∧ (∀ t, sd_lastUpdated (row_data row) = Some t → t ≠ 0 →
                  st_lastUpdated q = Some t)
          ∧ (sd_lastUpdated (row_data row) = None
             ∨ sd_lastUpdated (row_data row) = Some 0 →
             st_lastUpdated q = Some (updatedAt (columns row)))))
  ∧ st_status (GET columns db None) = 400
  ∧ st_status (GET columns db (Some "")) = 400.
Proof.
  intros Ha r. subst r. rewrite (POST_get _ _ _ _ _ Ha).
  split; [|done]. intros Hne q. subst q. unfold GET, findUnique.
  rewrite (proj2 (str_truthy_true _) Hne).
  destruct (db !! sessionId get) as [row|]; simpl.
  - do 5 (split; [done|]). intros row0 [= <-].
    split; [done|]. split.
    + intros t Ht Hz. rewrite Ht. simpl.
      unfold Js.num_truthy. by destruct (Z.eqb_spec t 0).
    + by intros [-> | ->].
  - by do 5 (split; [done|]).
Qed.

Lemma status_query_agrees_with_get_witness :
  let env := {| NEXTAUTH_URL := None; VERCEL_URL := None |} in
  let get := {| action := "get"; sessionId := "AAAAAAAA"; userId := None;
                data := None; type := None; field := None; value := None;
                timestamp := None; lastUpdate := None; initialData := None |} in
  let columns := λ _ : SharedSession, {| createdAt := 1; updatedAt := 2 |} in
  st_exists (GET columns ∅ (Some "AAAAAAAA")) = Some false
  ∧ status (POST env (λ _, 0%nat) 1000 ∅ get).2 = 404.
Proof.
  intros env get columns.
  destruct (proj1 (status_query_agrees_with_get columns env (λ _, 0%nat) 1000
                     ∅ get eq_refl) ltac:(done))
    as (_ & _ & Hex & _ & H404 & _).
  split; [exact Hex | by apply H404].
Defined.

(** X26. Update on an existing session leaves the participants as they
    are (it neither requires nor registers the caller), stamps
    [lastUpdated] with the current time, and logs nothing but what was
    logged before and the new event. *)
Theorem update_frame (env : Env) (draw : nat → nat) (now : Z) db
    (body : Body) (session : SharedSession) :
  action body = "update" →
  db !! sessionId body = Some session →
  ∃ session',
    (POST env draw now db body).1 !! sessionId body = Some session'
    ∧ sd_users (row_data session') = sd_users (row_data session)
    ∧ sd_lastUpdated (row_data session') = Some now
    ∧ (∀ u, u ∈ default [] (sd_updates (row_data session')) →
            u ∈ default [] (sd_updates (row_data session))
            ∨ u = updateEvent now body).
Proof.
  intros Ha Hs. rewrite (POST_update _ _ _ _ _ Ha), Hs. cbn [fst].
  eexists. rewrite lookup_insert_eq. split; [done|].
  cbn [withData row_data sd_users sd_lastUpdated sd_updates default].
  split; [done|]. split; [done|].
  intros u [Hu _]%list_elem_of_In%filter_In.
  apply in_app_or in Hu as [Hu|[<-|[]]]; [left | by right].
  by apply list_elem_of_In.
Qed.

Lemma update_frame_witness :
  let env := {| NEXTAUTH_URL := None; VERCEL_URL := None |} in
  let row :=
    {| row_sessionId := "AAAAAAAA"; row_creatorId := "collaboration";
       row_creatorName := "Collaboration Session";
       row_reportType := "collaboration"; row_permission := "edit";
       row_data := {| sd_data := Some JNull; sd_users := Some ∅;
                      sd_updates := Some []; sd_lastUpdated := Some 1000 |};
       row_expiresAt := 86401000 |} in
  let db : DB := {["AAAAAAAA" := row]} in
  let upd := {| action := "update"; sessionId := "AAAAAAAA"; userId := Some "u1";
                data := Some (JStr "v2"); type := Some "full"; field := None;
                value := None; timestamp := None; lastUpdate := None;
                initialData := None |} in
  ∃ session',
    (POST env (λ _, 0%nat) 2000 db upd).1 !! "AAAAAAAA" = Some session'
    ∧ sd_users (row_data session') = Some ∅.
Proof.
  intros env row db upd.
  destruct (update_frame env (λ _, 0%nat) 2000 db upd row eq_refl
              (lookup_insert_eq _ _ _)) as (session' & Hs & Hu & _).
  by exists session'.
Defined.

(** *** Minting identifiers *)

Lemma generateId_S (draw : nat → nat) (n : nat) :
  generateId draw (S n) = generateId draw n +:+ charAt chars (draw n).
Proof. unfold generateId. by rewrite seq_S, foldl_app. Qed.

Lemma charAt_length (s : string) (i : nat) : (String.length (charAt s i) ≤ 1)%nat.
Proof. unfold charAt. destruct (String.get i s); simpl; lia. Qed.

Lemma generateId_length_le (draw : nat → nat) (n : nat) :
  (String.length (generateId draw n) ≤ n)%nat.
Proof.
  induction n as [|n IH]; [done|].
  rewrite generateId_S, length_append.
  pose proof (charAt_length chars (draw n)). lia.
Qed.

Lemma append_inj_length (a b x y : string) :
  String.length a = String.length b → a +:+ x = b +:+ y → a = b ∧ x = y.
Proof.
  revert b. induction a as [|c a IH]; intros [|d b] Hlen E; simpl in *;
    try discriminate Hlen.
  - done.
  - injection E as -> E. injection Hlen as Hlen.
    destruct (IH b Hlen E) as [-> ->]. done.
Qed.

Lemma charAt_chars_inj (i j : nat) :
  (i < 62)%nat → (j < 62)%nat → charAt chars i = charAt chars j → i = j.
Proof.
  intros Hi Hj E.
  assert (forallb (λ i, forallb (λ j,
            implb (String.eqb (charAt chars i) (charAt chars j)) (Nat.eqb i j))
            (seq 0 62)) (seq 0 62) = true) as Hall by (by vm_compute).
  rewrite forallb_forall in Hall.
  specialize (Hall i ltac:(apply in_seq; lia)).
  rewrite forallb_forall in Hall.
  specialize (Hall j ltac:(apply in_seq; lia)).
  rewrite (proj2 (String.eqb_eq _ _) E) in Hall. simpl in Hall.
  by apply Nat.eqb_eq.
Qed.

(** X27. An identifier never has more characters than asked for, and the
    alphabet has no repeated character: with every draw below 62, two
    identifiers of the same length are equal only if all their draws are
    equal. *)
Theorem generateId_injective (draw draw' : nat → nat) (n : nat) :
  (String.length (generateId draw n) ≤ n)%nat
  ∧ ((∀ i, draw i < 62)%nat → (∀ i, draw' i < 62)%nat →
     generateId draw n = generateId draw' n →
     ∀ i, (i < n)%nat → draw i = draw' i).
Proof.
  split; [apply generateId_length_le|].
  intros Hd Hd'. induction n as [|n IH]; intros E i Hi; [lia|].
  rewrite !generateId_S in E.
  apply append_inj_length in E as [E1 E2].
  2:{ by rewrite (proj1 (generateId_shape draw n Hd)),
              (proj1 (generateId_shape draw' n Hd')). }
  destruct (decide (i = n)) as [->|Hne].
  - by apply charAt_chars_inj.
  - apply IH; [done | lia].
Qed.

Lemma generateId_injective_witness :
  (String.length (generateId (λ i, (i mod 62)%nat) 8) ≤ 8)%nat
  ∧ (λ i : nat, (i mod 62)%nat) 3%nat = (λ i : nat, ((i + 62) mod 62)%nat) 3%nat.
Proof.
  destruct (generateId_injective (λ i, (i mod 62)%nat)
              (λ i, ((i + 62) mod 62)%nat) 8) as [Hlen Hinj].
  split; [exact Hlen|].
  apply Hinj; [| |by vm_compute|lia].
  - intros i. apply Nat.mod_upper_bound. lia.
  - intros i. apply Nat.mod_upper_bound. lia.
Defined.

End SessionFacts.

(** ** The provisioning route *)

Section SetupFacts.

Import Setup.

Variable PREDEFINED_USERS : list PredefinedUser.
Variable bcryptHash : nat → string → string.
Variable rejects : list UserRow → UserRow → bool.

Local Abbreviation provision := (Setup.provision bcryptHash rejects).
Local Abbreviation POST := (Setup.POST PREDEFINED_USERS bcryptHash rejects).

Lemma findByEmail_app (email : string) (table more : list UserRow) :
  is_Some (findByEmail email table) → is_Some (findByEmail email (table ++ more)).
Proof.
  unfold findByEmail. induction table as [|r table IH]; simpl.
  - by intros [? ?].
  - destruct (String.eqb (usr_email r) email); [eauto | done].
Qed.

Lemma findByEmail_last (email : string) (table : list UserRow) (row : UserRow) :
  usr_email row = email → is_Some (findByEmail email (table ++ [row])).
Proof.
  intros E. unfold findByEmail. induction table as [|r table IH]; simpl.
  - rewrite E, String.eqb_refl. eauto.
  - destruct (String.eqb (usr_email r) email); [eauto | done].
Qed.

Lemma provision_spec (now : Z) (users : list PredefinedUser)
    (table : list UserRow) (c e : nat) :
  let out := provision now users table c e in
  (∃ new, out.1 = (table ++ new)%list)
  ∧ (∀ email, is_Some (findByEmail email table) →
              is_Some (findByEmail email out.1))
  ∧ (∀ c' e', out.2 = Some (c', e') →
       (c' + e' = c + e + length users)%nat
       ∧ (length out.1 + c = length table + c')%nat
       ∧ ∀ u, u ∈ users → is_Some (findByEmail (pu_email u) out.1)).
Proof.
  revert table c e. induction users as [|user rest IH]; intros table c e; simpl.
  - split; [exists []; by rewrite app_nil_r|]. split; [done|].
    intros c' e' [= <- <-]. split; [lia|]. split; [lia|].
    intros u Hu. by apply elem_of_nil in Hu.
  - destruct (findByEmail (pu_email user) table) as [found|] eqn:Hf.
    + destruct (IH table c (S e)) as (Hpre & Hmono & Hok).
      split; [done|]. split; [done|].
      intros c' e' Hout. destruct (Hok c' e' Hout) as (Hsum & Hlen & Hall).
      split; [lia|]. split; [lia|].
      intros u [->|Hu]%elem_of_cons; [|by apply Hall].
      apply Hmono. rewrite Hf. eauto.
    + set (row := {| usr_id := pu_id user |}).
      destruct (rejects table row); simpl.
      { split; [exists []; by rewrite app_nil_r|]. split; [done|]. done. }
      destruct (IH (table ++ [row])%list (S c) e) as ((new & Hnew) & Hmono & Hok).
      split; [exists (row :: new); by rewrite Hnew, <- app_assoc|].
      split; [intros email Hin; by apply Hmono, findByEmail_app|].
      intros c' e' Hout. destruct (Hok c' e' Hout) as (Hsum & Hlen & Hall).
      rewrite length_app in Hlen. simpl in Hlen.
      split; [lia|]. split; [lia|].
      intros u [->|Hu]%elem_of_cons; [|by apply Hall].
      by apply Hmono, findByEmail_last.
Qed.

Lemma provision_all_present (now : Z) (users : list PredefinedUser)
    (table : list UserRow) (c e : nat) :
  (∀ u, u ∈ users → is_Some (findByEmail (pu_email u) table)) →
  provision now users table c e = (table, Some (c, (e + length users)%nat)).
Proof.
  revert e. induction users as [|user rest IH]; intros e Hall; simpl.
  - by rewrite Nat.add_0_r.
  - destruct (Hall user ltac:(constructor)) as [found ->].
    rewrite IH; [do 3 f_equal; lia|].
    intros u Hu. apply Hall. by constructor.
Qed.

(** X28. Provisioning needs the setup secret: with any other [secret], or
    none, the answer is 401 without counters and the user table is left as
    it was. *)
Theorem setup_requires_secret (now : Z) (table : list UserRow)
    (secret : option string) :
  secret ≠ Some "z-services-setup-2024" →
  (POST now table secret).1 = table
  ∧ status (POST now table secret).2 = 401
  ∧ created (POST now table secret).2 = None
  ∧ existing (POST now table secret).2 = None.
Proof.
  intros Hs. unfold Setup.POST. by rewrite bool_decide_eq_false_2.
Qed.

Lemma setup_outcome (now : Z) (table : list UserRow) :
  let out := POST now table (Some "z-services-setup-2024") in
  (∃ new, out.1 = (table ++ new)%list)
  ∧ (status out.2 = 200 ∨ status out.2 = 500)
  ∧ (status out.2 = 200 →
     ∃ c e, created out.2 = Some c ∧ existing out.2 = Some e
            ∧ (c + e = length PREDEFINED_USERS)%nat
            ∧ (length out.1 = length table + c)%nat
            ∧ ∀ u, u ∈ PREDEFINED_USERS →
                   is_Some (findByEmail (pu_email u) out.1)).
Proof.
  unfold Setup.POST. rewrite bool_decide_eq_true_2 by done. simpl.
  destruct (provision_spec now PREDEFINED_USERS table 0 0) as (Hpre & _ & Hok).
  destruct (provision now PREDEFINED_USERS table 0 0) as [table' [[c e]|]];
    simpl in *.
  - split; [done|]. split; [by left|]. intros _.
    destruct (Hok c e eq_refl) as (Hsum & Hlen & Hall).
    exists c, e. repeat split; try done; lia.
  - split; [done|]. split; [by right|]. done.
Qed.

(** X29. Provisioning with the secret never modifies or removes a row: the
    table afterwards is the table before followed by the new rows.  It
    answers 200 or 500; when it answers 200 the two counters add up to the
    number of predefined users, the table has grown by [created] rows, and
    every predefined email has a row. *)
Theorem setup_accounting (now : Z) (table : list UserRow) :
  let out := POST now table (Some "z-services-setup-2024") in
  (∃ new, out.1 = (table ++ new)%list)
  ∧ (status out.2 = 200 ∨ status out.2 = 500)
  ∧ (status out.2 = 200 →
     ∃ c e, created out.2 = Some c ∧ existing out.2 = Some e
            ∧ (c + e = length PREDEFINED_USERS)%nat
            ∧ (length out.1 = length table + c)%nat
            ∧ ∀ u, u ∈ PREDEFINED_USERS →
                   is_Some (findByEmail (pu_email u) out.1)).
Proof. apply setup_outcome. Qed.

(** X30. Provisioning is idempotent: once it has answered 200, running it
    again with the secret answers 200 with nothing created, every
    predefined user counted as existing, and the table unchanged (no
    password is hashed or stored again). *)
Theorem setup_rerun (now now' : Z) (table : list UserRow) :
  let first := POST now table (Some "z-services-setup-2024") in
  status first.2 = 200 →
  let second := POST now' first.1 (Some "z-services-setup-2024") in
  second.1 = first.1
  ∧ status second.2 = 200
  ∧ created second.2 = Some 0%nat
  ∧ existing second.2 = Some (length PREDEFINED_USERS).
Proof.
  intros first Hok second.
  destruct (setup_outcome now table) as (_ & _ & Hacc).
  destruct (Hacc Hok) as (c & e & _ & _ & _ & _ & Hall).
  fold first in Hall. clearbody first. subst second.
  unfold Setup.POST. rewrite bool_decide_eq_true_2 by done. simpl.
  by rewrite (provision_all_present now' PREDEFINED_USERS _ 0 0 Hall).
Qed.

End SetupFacts.

Lemma setup_requires_secret_witness :
  let users := [ {| Setup.pu_id := "1"; Setup.pu_email := "a@z.com";
                    Setup.pu_name := "A"; Setup.pu_password := "pw" |} ] in
  Setup.status
    (Setup.POST users (λ _ p, p) (λ _ _, false) 1000 [] (Some "guess")).2 = 401.
Proof.
  intros users.
  by apply (setup_requires_secret users (λ _ p, p) (λ _ _, false) 1000 []
              (Some "guess")).
Defined.

Lemma setup_accounting_witness :
  let users := [ {| Setup.pu_id := "1"; Setup.pu_email := "a@z.com";
                    Setup.pu_name := "A"; Setup.pu_password := "pw" |} ] in
  ∃ c e,
    Setup.created
      (Setup.POST users (λ _ p, p) (λ _ _, false) 1000 []
         (Some "z-services-setup-2024")).2 = Some c
    ∧ Setup.existing
        (Setup.POST users (λ _ p, p) (λ _ _, false) 1000 []
           (Some "z-services-setup-2024")).2 = Some e
    ∧ (c + e = 1)%nat.
Proof.
  intros users.
  destruct (setup_accounting users (λ _ p, p) (λ _ _, false) 1000 [])
    as (_ & _ & Hacc).
  destruct (Hacc eq_refl) as (c & e & Hc & He & Hsum & _).
  by exists c, e.
Defined.

Lemma setup_rerun_witness :
  let users := [ {| Setup.pu_id := "1"; Setup.pu_email := "a@z.com";
                    Setup.pu_name := "A"; Setup.pu_password := "pw" |} ] in
  let first := Setup.POST users (λ _ p, p) (λ _ _, false) 1000 []
                 (Some "z-services-setup-2024") in
  Setup.created
    (Setup.POST users (λ _ p, p) (λ _ _, false) 2000 first.1
       (Some "z-services-setup-2024")).2 = Some 0%nat.
Proof.
  intros users first.
  destruct (setup_rerun users (λ _ p, p) (λ _ _, false) 1000 2000 [] eq_refl)
    as (_ & _ & Hc & _).
  exact Hc.
Defined.
